(** * SMHI_to_MT: message segmentation and the polling loop of meshtastic_SMHI.py

    A shallow embedding of [src/meshtastic_SMHI.py]:
    - Python [str] values are sequences of Unicode code points ([list Z]);
      [s.encode('utf-8')] is a real encoder into bytes that raises
      [UnicodeEncodeError] on lone surrogates;
    - exceptions are values of [exn], carried by [result];
    - the body of [main]'s [while True] loop is a function on an explicit
      program state, in a state-and-exception monad. *)

From Stdlib Require Import ZArith List Lia String Ascii DecimalString Bool.
From Stdlib Require Import DecimalFacts DecimalPos.
From stdpp Require Import base list gmap.
Import ListNotations.

Local Open Scope Z_scope.

(** ** Exceptions and fallible computations *)

Inductive exn : Type :=
  | UnicodeEncodeError
  | IndexError
  | ValueError
  | TypeError
  | JSONDecodeError.

Inductive result (A : Type) : Type :=
  | Ok (a : A)
  | Raised (e : exn).
Arguments Ok {A} a.
Arguments Raised {A} e.

Definition rbind {A B : Type} (m : result A) (k : A -> result B) : result B :=
  match m with
  | Ok a => k a
  | Raised e => Raised e
  end.

Notation "'let*' x ':=' m 'in' k" := (rbind m (fun x => k))
  (at level 10, x name, m at level 100, k at level 200).

(** ** Python strings *)

(** A [str] is its sequence of code points. *)
Abbreviation str := (list Z).

(** String literals of the source, for the ASCII range. *)
Definition lit (s : string) : str :=
  map (fun a => Z.of_N (N_of_ascii a)) (list_ascii_of_string s).

(** [len(x)] as a Python int. *)
Definition len {A : Type} (l : list A) : Z := Z.of_nat (length l).

(** [f"{n}"] for an int [n]. *)
Definition str_of_Z (n : Z) : str := lit (NilZero.string_of_int (Z.to_int n)).

(** [c.encode('utf-8')] for one code point. *)
Definition encode_char (c : Z) : result (list Z) :=
  if c <? 0 then Raised UnicodeEncodeError
  else if c <? 0x80 then Ok [c]
  else if c <? 0x800 then
    Ok [Z.lor 0xC0 (Z.shiftr c 6); Z.lor 0x80 (Z.land c 0x3F)]
  else if c <? 0x10000 then
    if (0xD800 <=? c) && (c <=? 0xDFFF) then Raised UnicodeEncodeError
    else Ok [Z.lor 0xE0 (Z.shiftr c 12);
             Z.lor 0x80 (Z.land (Z.shiftr c 6) 0x3F);
             Z.lor 0x80 (Z.land c 0x3F)]
  else if c <=? 0x10FFFF then
    Ok [Z.lor 0xF0 (Z.shiftr c 18);
        Z.lor 0x80 (Z.land (Z.shiftr c 12) 0x3F);
        Z.lor 0x80 (Z.land (Z.shiftr c 6) 0x3F);
        Z.lor 0x80 (Z.land c 0x3F)]
  else Raised UnicodeEncodeError.

(** [s.encode('utf-8')]. *)
Fixpoint encode (s : str) : result (list Z) :=
  match s with
  | [] => Ok []
  | c :: s' =>
      let* b := encode_char c in
      let* bs := encode s' in
      Ok (b ++ bs)
  end.

(** [s.split(" ")]: cut at every U+0020; never returns the empty list. *)
Fixpoint split_space (s : str) : list str :=
  match s with
  | [] => [[]]
  | c :: s' =>
      if c =? 32 then [] :: split_space s'
      else match split_space s' with
           | w :: ws => (c :: w) :: ws
           | [] => [[c]]
           end
  end.

(** [" ".join(ws)]. *)
Fixpoint str_join (ws : list str) : str :=
  match ws with
  | [] => []
  | [w] => w
  | w :: ws' => w ++ lit " " ++ str_join ws'
  end.

(** [c.isspace()] for one code point. *)
Definition isspace (c : Z) : bool :=
  ((0x09 <=? c) && (c <=? 0x0D)) || ((0x1C <=? c) && (c <=? 0x20))
  || (c =? 0x85) || (c =? 0xA0) || (c =? 0x1680)
  || ((0x2000 <=? c) && (c <=? 0x200A))
  || (c =? 0x2028) || (c =? 0x2029) || (c =? 0x202F) || (c =? 0x205F)
  || (c =? 0x3000).

Fixpoint lstrip (s : str) : str :=
  match s with
  | [] => []
  | c :: s' => if isspace c then lstrip s' else s
  end.

Definition rstrip (s : str) : str := rev (lstrip (rev s)).

(** [s.strip()]. *)
Definition strip (s : str) : str := rstrip (lstrip s).

(** ** truncate_utf8 *)

(** [f" {i}/{n}"]. *)
Definition positional_suffix (i n : Z) : str :=
  lit " " ++ str_of_Z i ++ lit "/" ++ str_of_Z n.

(** The truncation marker of line 52. *)
Definition marker : str := lit " [...]".

(** [l[-1] += x] on a non-empty list of strings. *)
Fixpoint add_to_last (l : list str) (x : str) : list str :=
  match l with
  | [] => []
  | [c] => [c ++ x]
  | c :: l' => c :: add_to_last l' x
  end.

(** The local variables of [truncate_utf8] that the word loop updates. *)
Record loop_state : Type := {
  chunks : list str;
  current_words : list str;
  current_size : Z;
  extra_suffix_length : Z
}.

(** How the [for word in words] loop was left: by running out of words, or
    through the [break] of line 57. *)
Inductive loop_exit : Type :=
  | Exhausted (st : loop_state)
  | Broke (st : loop_state).

Definition exit_state (e : loop_exit) : loop_state :=
  match e with Exhausted st => st | Broke st => st end.

(** Lines 27-61, the [for word in words] loop. *)
Fixpoint truncate_utf8_loop (MAX_MESSAGES max_bytes suffix_length : Z)
    (words : list str) (st : loop_state) : result loop_exit :=
  match words with
  | [] => Ok (Exhausted st)
  | word :: rest =>
      let* word_bytes := encode word in
      let word_size := len word_bytes in
      if word_size >? max_bytes then
        truncate_utf8_loop MAX_MESSAGES max_bytes suffix_length rest st
      else
        let extra := 1 + word_size in
        let esl := if len (chunks st) =? MAX_MESSAGES - 1 then 6
                   else extra_suffix_length st in
        if current_size st + extra <=? max_bytes - suffix_length - esl then
          truncate_utf8_loop MAX_MESSAGES max_bytes suffix_length rest
            {| chunks := chunks st;
               current_words := current_words st ++ [word];
               current_size := current_size st + extra;
               extra_suffix_length := esl |}
        else
          let chunks1 := chunks st ++ [str_join (current_words st)] in
          if len chunks1 =? MAX_MESSAGES then
            Ok (Broke {| chunks := add_to_last chunks1 marker;
                         current_words := [];
                         current_size := 0;
                         extra_suffix_length := esl |})
          else
            truncate_utf8_loop MAX_MESSAGES max_bytes suffix_length rest
              {| chunks := chunks1;
                 current_words := [word];
                 current_size := word_size;
                 extra_suffix_length := esl |}
  end.

(** Lines 67-68: trim every chunk and append its [" i/N"]. *)
Definition number_chunks (cs : list str) : list str :=
  imap (fun i c => strip c ++ positional_suffix (Z.of_nat i + 1) (len cs)) cs.

(** Lines 63-70: what happens once the loop is left. *)
Definition finalize (st : loop_state) : list str :=
  let cs := match current_words st with
            | [] => chunks st
            | _ :: _ => chunks st ++ [str_join (current_words st)]
            end in
  number_chunks cs.

Definition loop_start : loop_state :=
  {| chunks := []; current_words := []; current_size := 0;
     extra_suffix_length := 0 |}.

(** [truncate_utf8(s, max_bytes)], with the global [MAX_MESSAGES] it reads
    passed explicitly. *)
Definition truncate_utf8 (MAX_MESSAGES : Z) (s : str) (max_bytes : Z)
    : result (list str) :=
  let* s_bytes := encode s in
  if len s_bytes <=? max_bytes then Ok [s]
  else
    let* suffix_bytes := encode (positional_suffix MAX_MESSAGES MAX_MESSAGES) in
    let suffix_length := len suffix_bytes in
    let words := split_space s in
    let* e := truncate_utf8_loop MAX_MESSAGES max_bytes suffix_length words
                loop_start in
    Ok (finalize (exit_state e)).

(** Whether [truncate_utf8] leaves its loop through [break], that is,
    whether it truncates. *)
Definition truncates (MAX_MESSAGES : Z) (s : str) (max_bytes : Z) : bool :=
  match encode s with
  | Ok s_bytes =>
      if len s_bytes <=? max_bytes then false
      else
        match encode (positional_suffix MAX_MESSAGES MAX_MESSAGES) with
        | Ok suffix_bytes =>
            match truncate_utf8_loop MAX_MESSAGES max_bytes (len suffix_bytes)
                    (split_space s) loop_start with
            | Ok (Broke _) => true
            | _ => false
            end
        | Raised _ => false
        end
  | Raised _ => false
  end.

(** A word the loop skips at line 32. *)
Definition oversized (max_bytes : Z) (word : str) : bool :=
  match encode word with
  | Ok word_bytes => len word_bytes >? max_bytes
  | Raised _ => false
  end.

Definition encodable (s : str) : Prop := exists bs, encode s = Ok bs.


(** The chunk texts before trimming and numbering: every group of packed
    words joined by single spaces, with the marker on the last one when the
    loop was left through [break]. *)
Definition chunk_texts (truncated : bool) (groups : list (list str)) : list str :=
  if truncated then add_to_last (map str_join groups) marker
  else map str_join groups.

(** The words the loop does not skip. *)
Definition kept_words (max_bytes : Z) (words : list str) : list str :=
  List.filter (fun w => negb (oversized max_bytes w)) words.

(** ** The feed and fetch_alerts *)

(** One entry of [alert["warningAreas"]], with the keys the program reads.
    The ["area"] object, which [fetch_alerts] pops from its copy, is left
    out; [wa_id] is the text [f"{wa['id']}"]. *)
Record warning_area : Type := {
  wa_id : str;
  warningLevel_code : str;
  warningLevel_sv : str;
  areaName_sv : str;
  eventDescription_sv : str;
  approximateStart : str;
  approximateEnd : str;
  affectedAreas : list Z
}.

(** One element of the feed; [alert_id] is the text [f"{alert['id']}"]. *)
Record alert : Type := {
  alert_id : str;
  warningAreas : list warning_area
}.

(** What the network does in one call of [fetch_alerts]. *)
Inductive reply : Type :=
  | RequestFailed
      (* requests.get or raise_for_status raises a RequestException *)
  | BodyNotJson
      (* response.json() raises *)
  | Body (data : list alert).

(** The two shapes of value [fetch_alerts] returns: [set()] at line 82 and
    the tuple [alert_ids, filtered_alerts] at line 109. *)
Inductive fetched : Type :=
  | EmptySet
  | Pair (alert_ids : gset str) (filtered_alerts : list warning_area).

(** [wa_copy], lines 103-105. *)
Definition wa_copy (combined_id : str) (wa : warning_area) : warning_area :=
  {| wa_id := combined_id;
     warningLevel_code := warningLevel_code wa;
     warningLevel_sv := warningLevel_sv wa;
     areaName_sv := areaName_sv wa;
     eventDescription_sv := eventDescription_sv wa;
     approximateStart := approximateStart wa;
     approximateEnd := approximateEnd wa;
     affectedAreas := affectedAreas wa |}.

(** Lines 91-107, the inner loop over the warning areas of one alert. *)
Fixpoint filter_warning_areas (GEOCODE : Z) (alert_id : str)
    (was : list warning_area) (acc : gset str * list warning_area)
    : gset str * list warning_area :=
  match was with
  | [] => acc
  | wa :: rest =>
      if bool_decide (warningLevel_code wa = lit "MESSAGE") then
        filter_warning_areas GEOCODE alert_id rest acc
      else if existsb (fun a => a =? GEOCODE) (affectedAreas wa) then
        let combined_id := alert_id ++ wa_id wa in
        filter_warning_areas GEOCODE alert_id rest
          ({[combined_id]} ∪ fst acc, snd acc ++ [wa_copy combined_id wa])
      else filter_warning_areas GEOCODE alert_id rest acc
  end.

(** Lines 89-107, the loop over the feed. *)
Fixpoint filter_alerts (GEOCODE : Z) (data : list alert)
    (acc : gset str * list warning_area) : gset str * list warning_area :=
  match data with
  | [] => acc
  | a :: rest =>
      filter_alerts GEOCODE rest
        (filter_warning_areas GEOCODE (alert_id a) (warningAreas a) acc)
  end.

(** [fetch_alerts()]. *)
Definition fetch_alerts (GEOCODE : Z) (r : reply) : result fetched :=
  match r with
  | RequestFailed => Ok EmptySet
  | BodyNotJson => Raised JSONDecodeError
  | Body data =>
      let '(alert_ids, filtered_alerts) := filter_alerts GEOCODE data (∅, []) in
      Ok (Pair alert_ids filtered_alerts)
  end.

(** The tuple assignment [current_alerts, data = ...] of line 163. *)
Definition unpack2 (v : fetched) : result (gset str * list warning_area) :=
  match v with
  | Pair a b => Ok (a, b)
  | EmptySet => Raised ValueError
  end.

(** ** The rebroadcast queue *)

(** [message_queue]: one list of pending messages per future cycle. *)
Abbreviation ring := (list (list str)).

(** Line 147: [[[] for i in range(REPEAT_NUM_CYCL*REPEAT_NUM_MSG)]]. *)
Definition new_ring (REPEAT_NUM_MSG REPEAT_NUM_CYCL : Z) : ring :=
  map (fun _ => []) (seqZ 0 (REPEAT_NUM_CYCL * REPEAT_NUM_MSG)).

(** Lines 153 and 160: [pop(0)], then [append([])] once the popped
    messages are sent. *)
Definition ring_pop (q : ring) : result (list str * ring) :=
  match q with
  | [] => Raised IndexError
  | queued_messages :: rest => Ok (queued_messages, rest)
  end.

Definition ring_append (q : ring) : ring := q ++ [[]].

(** Where [l[j]] looks in a list of [n] elements. *)
Definition py_index (n : nat) (j : Z) : result nat :=
  if (0 <=? j) && (j <? Z.of_nat n) then Ok (Z.to_nat j)
  else if (- Z.of_nat n <=? j) && (j <? 0) then Ok (Z.to_nat (Z.of_nat n + j))
  else Raised IndexError.

(** [message_queue[j].extend(new_messages)]. *)
Definition ring_extend (j : Z) (new_messages : list str) (q : ring) : result ring :=
  let* i := py_index (length q) j in
  Ok (alter (fun slot => slot ++ new_messages) i q).

(** Lines 186-187. *)
Fixpoint ring_schedule_from (REPEAT_NUM_CYCL : Z) (new_messages : list str)
    (indices : list Z) (q : ring) : result ring :=
  match indices with
  | [] => Ok q
  | i :: rest =>
      let* q' := ring_extend ((i + 1) * REPEAT_NUM_CYCL - 1) new_messages q in
      ring_schedule_from REPEAT_NUM_CYCL new_messages rest q'
  end.

Definition ring_schedule (REPEAT_NUM_MSG REPEAT_NUM_CYCL : Z)
    (new_messages : list str) (q : ring) : result ring :=
  ring_schedule_from REPEAT_NUM_CYCL new_messages (seqZ 0 REPEAT_NUM_MSG) q.

(** ** The main loop *)

(** The globals set from the command line that the loop reads. *)
Record config : Type := {
  DRY_RUN : bool;
  GEOCODE : Z;
  MAX_MESSAGES : Z;
  REPEAT_NUM_MSG : Z;
  REPEAT_NUM_CYCL : Z;
  MESHTASTIC_CMD_TEMPLATE : list str
}.

(** What [call_meshtastic] does with one message. *)
Inductive event : Type :=
  | Subprocess (meshtastic_cmd : list str)
  | DryRun (message : str).

(** The variables of [main], and the calls made to the transport so far. *)
Record state : Type := {
  first : bool;
  message_queue : ring;
  known_alerts : gset str;
  dispatched : list event
}.

(** Computations that read and update [state] and may raise; the state
    reached when an exception is raised is kept. *)
Definition M (A : Type) : Type := state -> result A * state.

Definition ret {A : Type} (a : A) : M A := fun s => (Ok a, s).

Definition bind {A B : Type} (m : M A) (k : A -> M B) : M B :=
  fun s => match m s with
           | (Ok a, s') => k a s'
           | (Raised e, s') => (Raised e, s')
           end.

Definition lift {A : Type} (r : result A) : M A := fun s => (r, s).

Definition get : M state := fun s => (Ok s, s).

Notation "'let!' x ':=' m 'in' k" := (bind m (fun x => k))
  (at level 10, x name, m at level 100, k at level 200).
Notation "m ';;' k" := (bind m (fun _ => k))
  (at level 100, k at level 200, right associativity).

(** [for x in l: body(x)]. *)
Fixpoint for_each {A : Type} (l : list A) (body : A -> M unit) : M unit :=
  match l with
  | [] => ret tt
  | x :: rest => body x ;; for_each rest body
  end.

Definition set_message_queue (q : ring) : M unit :=
  fun s => (Ok tt, {| first := first s; message_queue := q;
                      known_alerts := known_alerts s;
                      dispatched := dispatched s |}).

Definition set_known_alerts (k : gset str) : M unit :=
  fun s => (Ok tt, {| first := first s; message_queue := message_queue s;
                      known_alerts := k; dispatched := dispatched s |}).

Definition set_first (b : bool) : M unit :=
  fun s => (Ok tt, {| first := b; message_queue := message_queue s;
                      known_alerts := known_alerts s;
                      dispatched := dispatched s |}).

(** The effect of one [call_meshtastic(template, message)]: a subprocess is
    run on [template + [message]], or, in a dry run, the message is only
    echoed.  A failing subprocess is caught inside [call_meshtastic], and
    [main] ignores what it returns.  The record [dispatched] says which
    calls are made, in order; whether a call returns is not modelled: an
    exception of [subprocess.run] other than [CalledProcessError] (a missing
    executable, a NUL in the message) would leave [call_meshtastic] and end
    the loop. *)
Definition transport (cfg : config) (template : list str) (message : str) : event :=
  if DRY_RUN cfg then DryRun message else Subprocess (template ++ [message]).

Definition call_meshtastic (cfg : config) (template : list str) (message : str)
    : M unit :=
  fun s => (Ok tt, {| first := first s; message_queue := message_queue s;
                      known_alerts := known_alerts s;
                      dispatched := dispatched s ++ [transport cfg template message] |}).

(** The guard of lines 151 and 184. *)
Definition repeats (cfg : config) : bool :=
  (REPEAT_NUM_MSG cfg >? 0) && (REPEAT_NUM_CYCL cfg >? 0).

(** The state [main] enters its loop with, lines 143-148. *)
Definition initial (cfg : config) : state :=
  {| first := negb (DRY_RUN cfg);
     message_queue := new_ring (REPEAT_NUM_MSG cfg) (REPEAT_NUM_CYCL cfg);
     known_alerts := ∅;
     dispatched := [] |}.

(** Lines 151-160. *)
Definition send_queued (cfg : config) : M unit :=
  if repeats cfg then
    let! s := get in
    let! p := lift (ring_pop (message_queue s)) in
    set_message_queue (snd p) ;;
    for_each (fst p) (call_meshtastic cfg (MESHTASTIC_CMD_TEMPLATE cfg)) ;;
    let! s' := get in
    set_message_queue (ring_append (message_queue s'))
  else ret tt.

(** [k] passes through lines 151-160, with nothing in between: the advances
    of the queue, as the loop makes them. *)
Fixpoint advances (cfg : config) (k : nat) : M unit :=
  match k with
  | O => ret tt
  | S k' => send_queued cfg ;; advances cfg k'
  end.

Section Driver.

(** [datetime.fromisoformat(t).strftime('%Y-%m-%d %H:%M')], which raises
    [ValueError] on a malformed timestamp. *)
Variable format_time : str -> result str.

(** The f-string of line 175. *)
Definition format_message (a : warning_area) : result str :=
  let* start := format_time (approximateStart a) in
  let* stop := format_time (approximateEnd a) in
  Ok (lit "SMHI: " ++ warningLevel_sv a ++ lit " varning f" ++ [246] ++ lit "r "
      ++ areaName_sv a ++ lit " - " ++ eventDescription_sv a
      ++ lit " fr" ++ [229] ++ lit "n " ++ start ++ lit " till " ++ stop).

(** Line 173, and the subscript of [None] that follows a failed search. *)
Definition find_alert (data : list warning_area) (id : str) : result warning_area :=
  match List.find (fun d => bool_decide (wa_id d = id)) data with
  | Some a => Ok a
  | None => Raised TypeError
  end.

(** Lines 173-188, the body of [for id in new_alerts]. *)
Definition announce (cfg : config) (data : list warning_area) (id : str) : M unit :=
  let! a := lift (find_alert data id) in
  let! message := lift (format_message a) in
  let! new_messages := lift (truncate_utf8 (MAX_MESSAGES cfg) message 200) in
  for_each new_messages (call_meshtastic cfg (MESHTASTIC_CMD_TEMPLATE cfg)) ;;
  if repeats cfg then
    let! s := get in
    let! q := lift (ring_schedule (REPEAT_NUM_MSG cfg) (REPEAT_NUM_CYCL cfg)
                      new_messages (message_queue s)) in
    set_message_queue q
  else ret tt.

(** Lines 151-195, one pass through the body of [while True]. *)
Definition cycle (cfg : config) (r : reply) : M unit :=
  send_queued cfg ;;
  let! v := lift (fetch_alerts (GEOCODE cfg) r) in
  let! p := lift (unpack2 v) in
  let current_alerts := fst p in
  let data := snd p in
  let! s := get in
  let new_alerts := current_alerts ∖ known_alerts s in
  (if negb (first s) then for_each (elements new_alerts) (announce cfg data)
   else ret tt) ;;
  set_known_alerts current_alerts ;;
  let! s' := get in
  if first s' then set_first false else ret tt.

(** [main()], run against the replies of the network to its successive
    fetches: the loop ends when an exception escapes a cycle.  The
    [print(message)] of line 176 and the [sleep(INTERVAL)] of line 200,
    which touch none of the variables of the loop, are left out. *)
Definition main (cfg : config) (replies : list reply) : result unit * state :=
  for_each replies (cycle cfg) (initial cfg).

(** The chunks [announce] sends for the alert [id] when nothing raises. *)
Definition messages_for (cfg : config) (data : list warning_area) (id : str)
    : list str :=
  match find_alert data id with
  | Ok a =>
      match format_message a with
      | Ok message =>
          match truncate_utf8 (MAX_MESSAGES cfg) message 200 with
          | Ok new_messages => new_messages
          | Raised _ => []
          end
      | Raised _ => []
      end
  | Raised _ => []
  end.

(** Every fetched record can be turned into a message: its timestamps
    parse and the text has no lone surrogate. *)
Definition renderable (data : list warning_area) : Prop :=
  forall a, In a data -> exists message, format_message a = Ok message /\ encodable message.

End Driver.

(** The queue has the size it was created with, whenever it is in use. *)
Definition ring_ok (cfg : config) (s : state) : Prop :=
  repeats cfg = true ->
  len (message_queue s) = REPEAT_NUM_MSG cfg * REPEAT_NUM_CYCL cfg.

(** The calls to the transport that sending [msgs] makes. *)
Definition sends (cfg : config) (msgs : list str) : list event :=
  map (transport cfg (MESHTASTIC_CMD_TEMPLATE cfg)) msgs.

(** ** A sample configuration and feed *)

(** A yellow wind warning for area 1, as alert 12, warning area 7. *)
Definition wind_warning : alert :=
  {| alert_id := lit "12";
     warningAreas :=
       [{| wa_id := lit "7";
           warningLevel_code := lit "YELLOW";
           warningLevel_sv := lit "Gul";
           areaName_sv := lit "Skane";
           eventDescription_sv := lit "Vind";
           approximateStart := lit "2024-01-01T10:00:00";
           approximateEnd := lit "2024-01-02T10:00:00";
           affectedAreas := [1; 2] |}] |}.

(** The defaults of the command line, with two repeats every three cycles. *)
Definition sample_config (dry_run : bool) : config :=
  {| DRY_RUN := dry_run;
     GEOCODE := 1;
     MAX_MESSAGES := 2;
     REPEAT_NUM_MSG := 2;
     REPEAT_NUM_CYCL := 3;
     MESHTASTIC_CMD_TEMPLATE :=
       [lit "meshtastic"; lit "--host"; lit "localhost"; lit "--ch-index";
        lit "0"; lit "--sendtext"] |}.

(** A stand-in for the timestamp formatting: the first sixteen characters,
    with the "T" of the ISO form replaced by a space. *)
Definition sample_format_time (t : str) : result str :=
  Ok (map (fun c => if c =? 84 then 32 else c) (take 16 t)).

(** The state after one cycle on the wind warning, in a dry run: its key
    is known. *)
Definition wind_known : state :=
  snd (cycle sample_format_time (sample_config true) (Body [wind_warning])
         (initial (sample_config true))).

(** ** Definitions used to state further properties *)

(** The number of bytes [encode_char] produces for a code point it accepts. *)
Definition char_width (c : Z) : Z :=
  if c <? 0x80 then 1 else if c <? 0x800 then 2
  else if c <? 0x10000 then 3 else 4.

(** The number of bytes of [s.encode('utf-8')] for a text it accepts. *)
Fixpoint byte_length (s : str) : Z :=
  match s with
  | [] => 0
  | c :: s' => char_width c + byte_length s'
  end.

(** The records [fetch_alerts] is to keep: a warning area of the feed whose
    level is not "MESSAGE" and that affects the area [G], under its
    combined id. *)
Definition selected (G : Z) (data : list alert) (r : warning_area) : Prop :=
  exists a wa, In a data /\ In wa (warningAreas a) /\
    warningLevel_code wa <> lit "MESSAGE" /\
    In G (affectedAreas wa) /\
    r = wa_copy (alert_id a ++ wa_id wa) wa.

(** Whether slot [k] is one of the slots [(i+1)*C - 1], [0 <= i < N], that
    lines 186-187 extend. *)
Definition slot_due (N C : Z) (k : nat) : bool :=
  existsb (fun i => Z.of_nat k =? (i + 1) * C - 1) (seqZ 0 N).

(** ** Invariants used in the proofs *)

(** What the loop has done when it is left: the chunks finished so far are
    groups of kept words, and no kept word was lost or reordered. *)
Definition loop_post (M B : Z) (before : list str) (e : loop_exit) : Prop :=
  match e with
  | Exhausted st' =>
      exists gs', chunks st' = map str_join gs' /\
                  concat gs' ++ current_words st' = before /\
                  (1 <= M -> len (chunks st') < M)
  | Broke st' =>
      exists gs' dropped,
        chunks st' = add_to_last (map str_join gs') marker /\
        current_words st' = [] /\
        concat gs' ++ dropped = before /\
        dropped <> [] /\ gs' <> [] /\ len (chunks st') = M
  end.

(** The keys [fetch_alerts] returns are the keys of the records it returns. *)
Definition keys_match (acc : gset str * list warning_area) : Prop :=
  forall k : str, k ∈ fst acc <-> exists a, In a (snd acc) /\ wa_id a = k.

(** * Facts about encoding and splitting *)

Lemma encode_app (a b : str) :
  encode (a ++ b) =
  let* x := encode a in let* y := encode b in Ok (x ++ y).
Proof.
  induction a as [|c a IH]; simpl.
  - destruct (encode b); reflexivity.
  - destruct (encode_char c) as [bc|e]; simpl; [|reflexivity].
    rewrite IH. destruct (encode a) as [x|e]; simpl; [|reflexivity].
    destruct (encode b) as [y|e]; simpl; [|reflexivity].
    now rewrite app_assoc.
Qed.

Lemma encodable_nil : encodable [].
Proof. exists []. reflexivity. Qed.

Lemma encodable_cons (c : Z) (s : str) :
  encodable (c :: s) <-> (exists b, encode_char c = Ok b) /\ encodable s.
Proof.
  unfold encodable; simpl. split.
  - intros [bs H]. destruct (encode_char c) as [b|e]; simpl in H; [|discriminate].
    destruct (encode s) as [x|e]; simpl in H; [|discriminate]. eauto.
  - intros [[b Hb] [x Hx]]. rewrite Hb, Hx. simpl. eauto.
Qed.

Lemma encodable_app (a b : str) :
  encodable (a ++ b) <-> encodable a /\ encodable b.
Proof.
  unfold encodable. rewrite encode_app. split.
  - intros [bs H]. destruct (encode a) as [x|e]; simpl in H; [|discriminate].
    destruct (encode b) as [y|e]; simpl in H; [|discriminate]. eauto.
  - intros [[x Hx] [y Hy]]. rewrite Hx, Hy. simpl. eauto.
Qed.

Lemma encode_char_byte (c : Z) : 0 <= c < 256 -> exists b, encode_char c = Ok b.
Proof.
  intros Hc. unfold encode_char.
  destruct (Z.ltb_spec c 0); [lia|].
  destruct (Z.ltb_spec c 128); [eauto|].
  destruct (Z.ltb_spec c 2048); [eauto|lia].
Qed.

Lemma encodable_lit (s : string) : encodable (lit s).
Proof.
  unfold lit. induction (list_ascii_of_string s) as [|a l IH]; simpl.
  - apply encodable_nil.
  - apply encodable_cons. split; [|exact IH].
    apply encode_char_byte. pose proof (N_ascii_bounded a). lia.
Qed.

Lemma encodable_positional_suffix (i n : Z) : encodable (positional_suffix i n).
Proof.
  unfold positional_suffix, str_of_Z.
  repeat (apply encodable_app; split); apply encodable_lit.
Qed.

Lemma split_space_nonempty (s : str) : split_space s <> [].
Proof.
  induction s as [|c s IH]; simpl; [discriminate|].
  destruct (c =? 32); [discriminate|].
  destruct (split_space s); [contradiction|discriminate].
Qed.

Lemma split_space_encodable (s : str) :
  encodable s -> Forall encodable (split_space s).
Proof.
  induction s as [|c s IH]; simpl; intros H.
  - constructor; [apply encodable_nil|constructor].
  - apply encodable_cons in H as [Hc Hs]. specialize (IH Hs).
    destruct (c =? 32).
    + constructor; [apply encodable_nil|exact IH].
    + destruct (split_space s) as [|w ws].
      * constructor; [|constructor]. apply encodable_cons. split; [exact Hc|apply encodable_nil].
      * inversion IH; subst. constructor; [|assumption].
        apply encodable_cons. split; assumption.
Qed.

(** * The word loop *)

Lemma add_to_last_snoc (l : list str) (c x : str) :
  add_to_last (l ++ [c]) x = l ++ [c ++ x].
Proof.
  induction l as [|a l IH]; simpl; [reflexivity|].
  rewrite IH. destruct (l ++ [c]) eqn:E; [|reflexivity].
  destruct l; discriminate.
Qed.

Lemma length_add_to_last (l : list str) (x : str) :
  length (add_to_last l x) = length l.
Proof.
  induction l as [|a l IH]; simpl; [reflexivity|].
  destruct l; [reflexivity|]. simpl in *. now rewrite IH.
Qed.

Lemma kept_words_cons (B : Z) (w : str) (ws : list str) :
  kept_words B (w :: ws) =
  if oversized B w then kept_words B ws else w :: kept_words B ws.
Proof. unfold kept_words. simpl. destruct (oversized B w); reflexivity. Qed.

Lemma truncate_utf8_loop_spec (M B sl : Z) (words : list str) :
  Forall encodable words ->
  forall (st : loop_state) (gs : list (list str)),
    chunks st = map str_join gs ->
    (1 <= M -> len (chunks st) < M) ->
    exists e, truncate_utf8_loop M B sl words st = Ok e /\
              loop_post M B (concat gs ++ current_words st ++ kept_words B words) e.
Proof.
  induction 1 as [|word rest Hword Hrest IH]; intros st gs Hgs Hlen.
  - simpl. eexists; split; [reflexivity|]. simpl. exists gs.
    rewrite app_nil_r. auto.
  - destruct Hword as [wb Hwb]. rewrite kept_words_cons. unfold oversized.
    simpl. rewrite Hwb; simpl.
    destruct (len wb >? B) eqn:Hover.
    + apply IH; assumption.
    + simpl negb. cbv iota.
      set (esl := if len (chunks st) =? M - 1 then 6 else extra_suffix_length st).
      destruct (current_size st + (1 + len wb) <=? B - sl - esl).
      * destruct (IH {| chunks := chunks st;
                        current_words := current_words st ++ [word];
                        current_size := current_size st + (1 + len wb);
                        extra_suffix_length := esl |} gs Hgs Hlen)
          as (e & He & Hpost).
        exists e. split; [exact He|]. simpl in Hpost.
        now rewrite <- app_assoc in Hpost.
      * destruct (len (chunks st ++ [str_join (current_words st)]) =? M) eqn:HM.
        -- apply Z.eqb_eq in HM. eexists; split; [reflexivity|].
           simpl. exists (gs ++ [current_words st]), (word :: kept_words B rest).
           rewrite map_app, <- Hgs. simpl map.
           repeat split.
           ++ rewrite concat_app. simpl. now rewrite app_nil_r, <- app_assoc.
           ++ discriminate.
           ++ destruct gs; discriminate.
           ++ unfold len. rewrite length_add_to_last. exact HM.
        -- apply Z.eqb_neq in HM.
           destruct (IH {| chunks := chunks st ++ [str_join (current_words st)];
                           current_words := [word];
                           current_size := len wb;
                           extra_suffix_length := esl |}
                        (gs ++ [current_words st])) as (e & He & Hpost).
           ++ simpl. now rewrite map_app, Hgs.
           ++ simpl. intros HM1. specialize (Hlen HM1). unfold len in *.
              rewrite length_app in *. simpl in *. lia.
           ++ exists e. split; [exact He|]. simpl in Hpost.
              rewrite concat_app in Hpost. simpl in Hpost.
              now rewrite app_nil_r, <- app_assoc in Hpost.
Qed.

(** Skipped words leave no trace in the loop. *)
Lemma truncate_utf8_loop_kept (M B sl : Z) (words : list str) :
  Forall encodable words ->
  forall st, truncate_utf8_loop M B sl words st =
             truncate_utf8_loop M B sl (kept_words B words) st.
Proof.
  induction 1 as [|word rest [wb Hwb] Hrest IH]; intros st; [reflexivity|].
  rewrite kept_words_cons. unfold oversized. rewrite Hwb.
  destruct (len wb >? B) eqn:Hover.
  - simpl. rewrite Hwb; simpl. rewrite Hover. apply IH.
  - simpl. rewrite Hwb; simpl. rewrite Hover.
    repeat match goal with |- context [if ?b then _ else _] => destruct b end;
      try reflexivity; apply IH.
Qed.

Lemma kept_words_In (B : Z) (w : str) (words : list str) :
  In w (kept_words B words) <-> In w words /\ oversized B w = false.
Proof.
  unfold kept_words. rewrite filter_In. now rewrite negb_true_iff.
Qed.

Lemma str_join_split_space (s : str) : str_join (split_space s) = s.
Proof.
  induction s as [|c s IH]; [reflexivity|].
  simpl split_space. pose proof (split_space_nonempty s) as Hne.
  destruct (Z.eqb_spec c 32) as [->|Hc].
  - destruct (split_space s) as [|w ws]; [contradiction|].
    change (str_join ([] :: w :: ws)) with (32 :: str_join (w :: ws)).
    now rewrite IH.
  - destruct (split_space s) as [|w ws]; [contradiction|].
    rewrite <- IH. destruct ws; reflexivity.
Qed.

Lemma split_space_word_len (s : str) :
  forall sb, encode s = Ok sb ->
  forall w, In w (split_space s) ->
  exists wb, encode w = Ok wb /\ len wb <= len sb.
Proof.
  induction s as [|c s IH]; intros sb Hsb w Hw.
  - simpl in Hw. destruct Hw as [<-|[]]. exists []. split; [reflexivity|].
    unfold len. simpl. lia.
  - simpl in Hsb.
    destruct (encode_char c) as [b|] eqn:Hc; simpl in Hsb; [|discriminate].
    destruct (encode s) as [bs|] eqn:Hs; simpl in Hsb; [|discriminate].
    injection Hsb as <-. specialize (IH bs eq_refl).
    assert (Hlen : len (b ++ bs) = len b + len bs)
      by (unfold len; rewrite length_app; lia).
    assert (Hb : 0 <= len b) by (unfold len; lia).
    simpl in Hw. destruct (c =? 32).
    + destruct Hw as [<-|Hw].
      * exists []. split; [reflexivity|]. unfold len. simpl. lia.
      * destruct (IH w Hw) as (wb & Hwb & Hle). exists wb. split; [exact Hwb|lia].
    + destruct (split_space s) as [|w0 ws] eqn:Hsplit.
      * destruct Hw as [<-|[]]. simpl. rewrite Hc. simpl.
        exists (b ++ []). split; [reflexivity|]. rewrite app_nil_r.
        unfold len in *. lia.
      * destruct Hw as [<-|Hw].
        -- destruct (IH w0 (or_introl eq_refl)) as (wb & Hwb & Hle).
           simpl. rewrite Hc, Hwb. simpl. exists (b ++ wb). split; [reflexivity|].
           unfold len in *. rewrite length_app. lia.
        -- destruct (IH w (or_intror Hw)) as (wb & Hwb & Hle).
           exists wb. split; [exact Hwb|lia].
Qed.

(** * Trimming a chunk that carries the marker *)

Lemma rstrip_keeps (s : str) (c : Z) :
  isspace c = false -> rstrip (s ++ [c]) = s ++ [c].
Proof.
  intros Hc. unfold rstrip. rewrite rev_app_distr. simpl. rewrite Hc.
  change (c :: rev s) with (rev [c] ++ rev s).
  now rewrite <- rev_app_distr, rev_involutive.
Qed.

Lemma lstrip_marker (c : str) :
  exists body, lstrip (c ++ marker) = body ++ lit "[...]".
Proof.
  induction c as [|a c IH]; simpl.
  - exists []. reflexivity.
  - destruct (isspace a); [exact IH|].
    exists (a :: c ++ lit " "). simpl. now rewrite <- app_assoc.
Qed.

Lemma lstrip_app_visible (c x : str) :
  (exists a, In a c /\ isspace a = false) -> lstrip (c ++ x) = lstrip c ++ x.
Proof.
  induction c as [|b c IH]; intros (a & Ha & Hsp); [destruct Ha|].
  simpl. destruct (isspace b) eqn:Hb; [|reflexivity].
  apply IH. destruct Ha as [->|Ha]; [congruence|eauto].
Qed.

Lemma strip_marker (c : str) :
  exists body, strip (c ++ marker) = body ++ lit "[...]".
Proof.
  destruct (lstrip_marker c) as [body Hbody]. exists body.
  unfold strip. rewrite Hbody.
  change (lit "[...]") with (lit "[..." ++ [93]). rewrite app_assoc.
  now apply rstrip_keeps.
Qed.

Lemma strip_marker_visible (c : str) :
  (exists a, In a c /\ isspace a = false) ->
  strip (c ++ marker) = lstrip c ++ marker.
Proof.
  intros H. unfold strip. rewrite (lstrip_app_visible _ _ H).
  change marker with (lit " [..." ++ [93]). rewrite app_assoc.
  now apply rstrip_keeps.
Qed.

(** * The shape of a segmented result *)

Lemma len_map {A B : Type} (f : A -> B) (l : list A) : len (map f l) = len l.
Proof. unfold len. now rewrite length_map. Qed.

Lemma len_number_chunks (cs : list str) : len (number_chunks cs) = len cs.
Proof. unfold len, number_chunks. now rewrite length_imap. Qed.

Lemma len_chunk_texts (t : bool) (groups : list (list str)) :
  len (chunk_texts t groups) = len groups.
Proof.
  unfold chunk_texts, len. destruct t.
  - now rewrite length_add_to_last, length_map.
  - now rewrite length_map.
Qed.

(** Whenever the text does not fit, the result is the numbering of the
    packed word groups, which together are the kept words up to the first
    discarded one. *)
Lemma truncate_utf8_segmented (M : Z) (s : str) (B : Z) (sb : list Z) :
  encode s = Ok sb -> B < len sb ->
  exists groups dropped,
    truncate_utf8 M s B
      = Ok (number_chunks (chunk_texts (truncates M s B) groups)) /\
    concat groups ++ dropped = kept_words B (split_space s) /\
    (if truncates M s B
     then dropped <> [] /\ groups <> [] /\ len groups = M
     else dropped = [] /\ (1 <= M -> len groups <= M)).
Proof.
  intros Hsb HB.
  pose proof (split_space_encodable s (ex_intro _ sb Hsb)) as Hwords.
  destruct (encodable_positional_suffix M M) as [suf Hsuf].
  destruct (truncate_utf8_loop_spec M B (len suf) _ Hwords loop_start [] eq_refl)
    as (e & He & Hpost).
  { intros HM. unfold len. simpl. lia. }
  unfold truncate_utf8, truncates. rewrite Hsb. unfold rbind at 1.
  destruct (Z.leb_spec (len sb) B) as [|_]; [lia|].
  rewrite Hsuf. unfold rbind at 1. rewrite He. unfold rbind.
  destruct e as [st'|st']; simpl in Hpost; unfold exit_state, finalize.
  - destruct Hpost as (gs' & Hch & Hcat & Hlen).
    destruct (current_words st') as [|w cw] eqn:Hcw.
    + exists gs', []. rewrite Hch. repeat split; try assumption.
      intros HM. specialize (Hlen HM). rewrite Hch, len_map in Hlen. lia.
    + exists (gs' ++ [w :: cw]), []. rewrite Hch. unfold chunk_texts.
      rewrite map_app. simpl map. repeat split.
      * rewrite app_nil_r, concat_app. simpl. now rewrite app_nil_r.
      * intros HM. specialize (Hlen HM). rewrite Hch, len_map in Hlen.
        unfold len in *. rewrite length_app. simpl. lia.
  - destruct Hpost as (gs' & dropped & Hch & Hcw & Hcat & Hdrop & Hgs & Hlen).
    rewrite Hcw. exists gs', dropped. rewrite Hch. repeat split; try assumption.
    rewrite Hch in Hlen. unfold len in *.
    now rewrite length_add_to_last, length_map in Hlen.
Qed.

Lemma truncate_utf8_fits (M : Z) (s : str) (B : Z) (sb : list Z) :
  encode s = Ok sb -> len sb <= B -> truncate_utf8 M s B = Ok [s].
Proof.
  intros Hsb HB. unfold truncate_utf8. rewrite Hsb. unfold rbind.
  destruct (Z.leb_spec (len sb) B); [reflexivity|lia].
Qed.

Lemma last_number_chunks (l : list str) (x : str) :
  last (number_chunks (l ++ [x]))
  = Some (strip x ++ positional_suffix (len (l ++ [x])) (len (l ++ [x]))).
Proof.
  unfold number_chunks. rewrite imap_app. simpl. rewrite last_snoc.
  do 3 f_equal. unfold len. rewrite length_app. simpl. lia.
Qed.

Lemma lookup_number_chunks (cs : list str) (i : nat) (c : str) :
  number_chunks cs !! i = Some c ->
  exists text, c = text ++ positional_suffix (Z.of_nat i + 1) (len cs).
Proof.
  unfold number_chunks. rewrite list_lookup_imap.
  destruct (cs !! i) as [x|]; simpl; [|discriminate].
  intros [= <-]. eauto.
Qed.

Lemma truncates_inv (M : Z) (s : str) (B : Z) :
  truncates M s B = true -> exists sb, encode s = Ok sb /\ B < len sb.
Proof.
  unfold truncates. destruct (encode s) as [sb|]; [|discriminate].
  destruct (Z.leb_spec (len sb) B); [discriminate|]. eauto.
Qed.

(** Once segmentation runs with at least one message allowed, it never
    returns more than [MAX_MESSAGES] chunks. *)
Lemma truncate_utf8_count (M : Z) (s : str) (B : Z) (sb : list Z) (cs : list str) :
  1 <= M -> encode s = Ok sb -> truncate_utf8 M s B = Ok cs -> len cs <= M.
Proof.
  intros HM Hsb Hcs. destruct (Z.le_gt_cases (len sb) B) as [HB|HB].
  - rewrite (truncate_utf8_fits M s B sb Hsb HB) in Hcs. injection Hcs as <-.
    unfold len. simpl. lia.
  - destruct (truncate_utf8_segmented M s B sb Hsb HB)
      as (groups & dropped & Heq & _ & Hrest).
    rewrite Heq in Hcs. injection Hcs as <-.
    rewrite len_number_chunks, len_chunk_texts.
    destruct (truncates M s B); [lia|]. now apply Hrest.
Qed.

(** * Segmentation: the claims *)

(** C1 (the code departs from the claim).  Claim: every returned chunk,
    with its positional suffix, is at most [max_bytes] bytes long.  At the
    budget of 200 bytes that [main] uses and the default of two messages,
    the text made of the word "x" and a word of 199 bytes comes back as
    "x 1/2" and a second chunk of 203 bytes: a word that starts a new chunk
    is only compared with [max_bytes], never with the room left once the
    suffix is reserved.  Likewise, at a budget of 20 bytes a last chunk that
    received the marker is 24 bytes long. *)
Theorem truncate_utf8_chunk_over_budget :
  truncate_utf8 2 (lit "x " ++ replicate 199 97) 200
    = Ok [lit "x 1/2"; replicate 199 97 ++ lit " 2/2"] /\
  encode (replicate 199 97 ++ lit " 2/2") = Ok (replicate 199 97 ++ lit " 2/2") /\
  len (replicate 199 97 ++ lit " 2/2") = 203 /\
  truncate_utf8 2 (lit "aaaaaaaaaaaa bbbbbbbbbbbbbb c") 20
    = Ok [lit "aaaaaaaaaaaa 1/2"; lit "bbbbbbbbbbbbbb [...] 2/2"] /\
  encode (lit "bbbbbbbbbbbbbb [...] 2/2") = Ok (lit "bbbbbbbbbbbbbb [...] 2/2") /\
  len (lit "bbbbbbbbbbbbbb [...] 2/2") = 24.
Proof. repeat split; vm_compute; reflexivity. Qed.

(** C4, as stated, fails: a text below the budget is returned as it is,
    not trimmed. *)
Lemma short_text_is_not_trimmed :
  ~ (forall (M : Z) (s : str) (B : Z) (sb : list Z),
       encode s = Ok sb -> len sb < B ->
       truncate_utf8 M s B = Ok [strip s]).
Proof.
  intros H. specialize (H 2 (lit " a") 200 (lit " a") eq_refl eq_refl).
  vm_compute in H. discriminate.
Qed.

(** C4, amended.  A text whose UTF-8 length is at most the budget comes
    back as exactly one chunk, the input itself, untrimmed and without a
    positional suffix; a text longer than the budget comes back with the
    suffix " i/N" at the end of every chunk, [i] its 1-based position and
    [N] the number of chunks. *)
Theorem short_text_returned_unchanged (M : Z) (s : str) (B : Z) (sb : list Z) :
  encode s = Ok sb ->
  (len sb <= B -> truncate_utf8 M s B = Ok [s]) /\
  (B < len sb ->
   exists cs, truncate_utf8 M s B = Ok cs /\
     forall (i : nat) (c : str), cs !! i = Some c ->
       exists text, c = text ++ positional_suffix (Z.of_nat i + 1) (len cs)).
Proof.
  intros Hsb. split.
  - now apply truncate_utf8_fits.
  - intros HB.
    destruct (truncate_utf8_segmented M s B sb Hsb HB) as (groups & dropped & Heq & _).
    eexists. split; [exact Heq|]. intros i c Hc.
    rewrite len_number_chunks.
    now apply lookup_number_chunks.
Qed.

Lemma short_text_returned_unchanged_witness :
  truncate_utf8 2 (lit " a") 200 = Ok [lit " a"] /\
  exists cs,
    truncate_utf8 2 (lit "alert for north region flooding now") 20 = Ok cs /\
    forall (i : nat) (c : str), cs !! i = Some c ->
      exists text, c = text ++ positional_suffix (Z.of_nat i + 1) (len cs).
Proof.
  split.
  - apply (short_text_returned_unchanged 2 (lit " a") 200 (lit " a") eq_refl).
    vm_compute. discriminate.
  - apply (short_text_returned_unchanged 2
             (lit "alert for north region flooding now") 20
             (lit "alert for north region flooding now") eq_refl).
    reflexivity.
Defined.

(** C5, as stated, fails: with a single message allowed and a first word
    that does not fit, the only chunk is "[...] 1/1", which ends neither
    with the marker " [...]" nor with the marker followed by its positional
    suffix. *)
Lemma truncated_chunk_without_marker_space :
  ~ (forall (M : Z) (s : str) (B : Z) (cs : list str),
       truncates M s B = true -> truncate_utf8 M s B = Ok cs ->
       exists c body, last cs = Some c /\
         (c = body ++ marker \/
          c = body ++ marker ++ positional_suffix (len cs) (len cs))).
Proof.
  intros H.
  destruct (H 1 (replicate 191 97 ++ lit " " ++ replicate 20 98) 200
              [lit "[...] 1/1"]) as (c & body & Hc & Hend);
    [vm_compute; reflexivity | vm_compute; reflexivity |].
  injection Hc as <-.
  destruct Hend as [Hend|Hend]; apply (f_equal (@rev Z)) in Hend;
    rewrite ?rev_app_distr in Hend; vm_compute in Hend; discriminate.
Qed.

(** C5, amended.  Whenever [truncate_utf8] truncates (leaves its loop
    through [break]), it returns exactly [MAX_MESSAGES] chunks; the chunks
    are the numbered, trimmed texts of groups of words that, put end to
    end, are the kept words (the words of the text that are not longer than
    [max_bytes]) up to, and not including, the discarded ones, of which
    there is at least one; the last chunk ends with "[...]" followed by its
    positional suffix " N/N", and the marker keeps its leading space
    whenever the words of the last chunk contain a character that is not
    whitespace. *)
Theorem truncation_discards_the_rest (M : Z) (s : str) (B : Z) :
  truncates M s B = true ->
  exists groups dropped cs,
    truncate_utf8 M s B = Ok cs /\
    cs = number_chunks (chunk_texts true groups) /\
    concat groups ++ dropped = kept_words B (split_space s) /\
    dropped <> [] /\
    len cs = M /\
    (exists body, last cs = Some (body ++ lit "[...]" ++ positional_suffix M M)) /\
    (forall g, last groups = Some g ->
       (exists a, In a (str_join g) /\ isspace a = false) ->
       exists body, last cs = Some (body ++ marker ++ positional_suffix M M)).
Proof.
  intros Ht. destruct (truncates_inv M s B Ht) as (sb & Hsb & HB).
  destruct (truncate_utf8_segmented M s B sb Hsb HB)
    as (groups & dropped & Heq & Hcat & Hrest).
  rewrite Ht in Heq, Hrest. destruct Hrest as (Hdrop & Hgs & Hlen).
  exists groups, dropped, (number_chunks (chunk_texts true groups)).
  repeat split; try assumption.
  - now rewrite len_number_chunks, len_chunk_texts.
  - destruct groups as [|g gs _] using rev_ind; [contradiction|].
    unfold chunk_texts. rewrite map_app. simpl map. rewrite add_to_last_snoc.
    rewrite last_number_chunks.
    replace (len (map str_join gs ++ [str_join g ++ marker])) with M.
    + destruct (strip_marker (str_join g)) as [body ->]. exists body.
      now rewrite <- app_assoc.
    + rewrite <- Hlen. unfold len. now rewrite !length_app, length_map.
  - intros g Hg Hvis.
    destruct groups as [|g' gs _] using rev_ind; [contradiction|].
    rewrite last_snoc in Hg. injection Hg as ->.
    unfold chunk_texts. rewrite map_app. simpl map. rewrite add_to_last_snoc.
    rewrite last_number_chunks.
    replace (len (map str_join gs ++ [str_join g ++ marker])) with M.
    + rewrite (strip_marker_visible _ Hvis). exists (lstrip (str_join g)).
      now rewrite <- app_assoc.
    + rewrite <- Hlen. unfold len. now rewrite !length_app, length_map.
Qed.

Lemma truncation_discards_the_rest_witness :
  exists groups dropped cs,
    truncate_utf8 2 (lit "alert for north region flooding now") 20 = Ok cs /\
    cs = number_chunks (chunk_texts true groups) /\
    concat groups ++ dropped
      = kept_words 20 (split_space (lit "alert for north region flooding now")) /\
    dropped <> [] /\
    len cs = 2 /\
    (exists body, last cs = Some (body ++ lit "[...]" ++ positional_suffix 2 2)) /\
    (forall g, last groups = Some g ->
       (exists a, In a (str_join g) /\ isspace a = false) ->
       exists body, last cs = Some (body ++ marker ++ positional_suffix 2 2)).
Proof.
  apply (truncation_discards_the_rest 2 (lit "alert for north region flooding now") 20).
  vm_compute. reflexivity.
Defined.

(** C6, as stated, fails: a word longer than [max_bytes] is dropped from
    the middle of the text, so the words of the chunks are not a prefix of
    the word sequence of the input. *)
Lemma chunks_skip_a_middle_word :
  ~ (forall (M : Z) (s : str) (B : Z) (cs : list str),
       truncate_utf8 M s B = Ok cs ->
       cs = [s] \/
       exists groups t,
         cs = number_chunks (chunk_texts t groups) /\
         concat groups `prefix_of` split_space s).
Proof.
  intros H.
  destruct (H 2 (lit "a " ++ replicate 201 120 ++ lit " b") 200 [lit "a b 1/1"])
    as [Hs | (groups & t & Heq & (k & Hk))];
    [vm_compute; reflexivity | vm_compute in Hs; discriminate |].
  assert (Hlen : len groups = 1).
  { apply (f_equal len) in Heq. now rewrite len_number_chunks, len_chunk_texts in Heq. }
  destruct groups as [|g [|g' groups]]; try (vm_compute in Hlen; discriminate);
    [|unfold len in Hlen; simpl in Hlen; lia].
  simpl in Hk. rewrite app_nil_r in Hk.
  assert (Hg : g = [] \/ g = [lit "a"] \/ g = [lit "a"; replicate 201 120]
               \/ g = [lit "a"; replicate 201 120; lit "b"]).
  { vm_compute in Hk.
    destruct g as [|w1 [|w2 [|w3 [|w4 g]]]]; simpl in Hk.
    - left; reflexivity.
    - injection Hk as H1 _. subst w1. right; left; reflexivity.
    - injection Hk as H1 H2 _. subst w1 w2. right; right; left; reflexivity.
    - injection Hk as H1 H2 H3 _. subst w1 w2 w3. right; right; right; reflexivity.
    - discriminate. }
  destruct Hg as [-> | [-> | [-> | ->]]]; destruct t; vm_compute in Heq; discriminate.
Qed.

(** C6, amended.  For every text that can be encoded, [truncate_utf8]
    returns; either the text fits the budget and the only chunk is the text
    itself, whose words are the whole word sequence, or the chunks are the
    numbered, trimmed texts (with the marker on the last one after a
    truncation) of groups of words that, put end to end, are a prefix of
    the space-separated word sequence of the text from which the words
    longer than [max_bytes] have been removed: no word is reordered or
    repeated. *)
Theorem chunks_reproduce_kept_prefix (M : Z) (s : str) (B : Z) :
  encodable s ->
  exists cs, truncate_utf8 M s B = Ok cs /\
    ((cs = [s] /\ str_join (split_space s) = s /\
      kept_words B (split_space s) = split_space s) \/
     (exists groups,
        cs = number_chunks (chunk_texts (truncates M s B) groups) /\
        concat groups `prefix_of` kept_words B (split_space s))).
Proof.
  intros [sb Hsb]. destruct (Z.le_gt_cases (len sb) B) as [HB|HB].
  - exists [s]. split; [now apply (truncate_utf8_fits M s B sb)|]. left.
    split; [reflexivity|]. split; [apply str_join_split_space|].
    unfold kept_words. apply forallb_filter_id. apply forallb_forall.
    intros w Hw. destruct (split_space_word_len s sb Hsb w Hw) as (wb & Hwb & Hle).
    unfold oversized. rewrite Hwb. apply negb_true_iff. rewrite Z.gtb_ltb. apply Z.ltb_ge. lia.
  - destruct (truncate_utf8_segmented M s B sb Hsb HB)
      as (groups & dropped & Heq & Hcat & _).
    eexists. split; [exact Heq|]. right. exists groups. split; [reflexivity|].
    exists dropped. now rewrite Hcat.
Qed.

Lemma chunks_reproduce_kept_prefix_witness :
  exists cs,
    truncate_utf8 2 (lit "a " ++ replicate 201 120 ++ lit " b") 200 = Ok cs /\
    ((cs = [lit "a " ++ replicate 201 120 ++ lit " b"] /\
      str_join (split_space (lit "a " ++ replicate 201 120 ++ lit " b"))
        = lit "a " ++ replicate 201 120 ++ lit " b" /\
      kept_words 200 (split_space (lit "a " ++ replicate 201 120 ++ lit " b"))
        = split_space (lit "a " ++ replicate 201 120 ++ lit " b")) \/
     (exists groups,
        cs = number_chunks
               (chunk_texts
                  (truncates 2 (lit "a " ++ replicate 201 120 ++ lit " b") 200)
                  groups) /\
        concat groups
          `prefix_of`
          kept_words 200 (split_space (lit "a " ++ replicate 201 120 ++ lit " b")))).
Proof.
  apply (chunks_reproduce_kept_prefix 2 (lit "a " ++ replicate 201 120 ++ lit " b") 200).
  eexists. vm_compute. reflexivity.
Defined.

(** C7.  A word of the text whose own UTF-8 length exceeds [max_bytes] is
    dropped entirely: [truncate_utf8] returns (a loop over the finite word
    list, it always terminates); its chunks are the numbered texts of groups
    of words none of which is that word; and the word loop behaves, from
    any state, exactly as on the word list without the words longer than
    [max_bytes], so such a word adds nothing to the size of any chunk. *)
Theorem oversized_word_dropped (M : Z) (s : str) (B : Z) (w : str) :
  encodable s -> In w (split_space s) -> oversized B w = true ->
  (exists cs groups,
     truncate_utf8 M s B = Ok cs /\
     cs = number_chunks (chunk_texts (truncates M s B) groups) /\
     concat groups `prefix_of` kept_words B (split_space s) /\
     ~ In w (concat groups)) /\
  (forall sl st,
     truncate_utf8_loop M B sl (split_space s) st
     = truncate_utf8_loop M B sl (kept_words B (split_space s)) st).
Proof.
  intros [sb Hsb] Hw Hover. split.
  - destruct (split_space_word_len s sb Hsb w Hw) as (wb & Hwb & Hle).
    assert (HB : B < len sb).
    { unfold oversized in Hover. rewrite Hwb in Hover.
      rewrite Z.gtb_ltb in Hover. apply Z.ltb_lt in Hover. lia. }
    destruct (truncate_utf8_segmented M s B sb Hsb HB)
      as (groups & dropped & Heq & Hcat & _).
    eexists. exists groups. split; [exact Heq|]. split; [reflexivity|].
    split; [exists dropped; now rewrite Hcat|].
    intros Hin.
    assert (Hk : In w (kept_words B (split_space s)))
      by (rewrite <- Hcat; apply in_or_app; now left).
    apply kept_words_In in Hk as [_ Hk]. congruence.
  - intros sl st. apply truncate_utf8_loop_kept.
    apply split_space_encodable. now exists sb.
Qed.

Lemma oversized_word_dropped_witness :
  (exists cs groups,
     truncate_utf8 2 (lit "a " ++ replicate 201 120 ++ lit " b") 200 = Ok cs /\
     cs = number_chunks
            (chunk_texts (truncates 2 (lit "a " ++ replicate 201 120 ++ lit " b") 200)
               groups) /\
     concat groups
       `prefix_of`
       kept_words 200 (split_space (lit "a " ++ replicate 201 120 ++ lit " b")) /\
     ~ In (replicate 201 120) (concat groups)) /\
  (forall sl st,
     truncate_utf8_loop 2 200 sl
       (split_space (lit "a " ++ replicate 201 120 ++ lit " b")) st
     = truncate_utf8_loop 2 200 sl
         (kept_words 200 (split_space (lit "a " ++ replicate 201 120 ++ lit " b"))) st).
Proof.
  apply (oversized_word_dropped 2 (lit "a " ++ replicate 201 120 ++ lit " b") 200
           (replicate 201 120)).
  - eexists. vm_compute. reflexivity.
  - vm_compute. right. left. reflexivity.
  - vm_compute. reflexivity.
Defined.

(** * The rebroadcast queue *)

Lemma length_new_ring (N C : Z) : length (new_ring N C) = Z.to_nat (C * N).
Proof. unfold new_ring. now rewrite length_map, length_seqZ. Qed.

Lemma nth_new_ring (N C : Z) (k : nat) : nth k (new_ring N C) [] = [].
Proof.
  unfold new_ring. rewrite nth_lookup.
  change (map (fun _ : Z => @nil str) (seqZ 0 (C * N)))
    with ((fun _ : Z => @nil str) <$> seqZ 0 (C * N)).
  rewrite list_lookup_fmap. now destruct (seqZ 0 (C * N) !! k).
Qed.

Lemma py_index_in_range (n : nat) (j : Z) :
  0 <= j < Z.of_nat n -> py_index n j = Ok (Z.to_nat j).
Proof.
  intros Hj. unfold py_index.
  destruct (Z.leb_spec 0 j); [|lia]. destruct (Z.ltb_spec j (Z.of_nat n)); [|lia].
  reflexivity.
Qed.

Lemma nth_alter_slot (q : ring) (msgs : list str) (i k : nat) :
  (i < length q)%nat ->
  nth k (alter (fun slot => slot ++ msgs) i q) []
  = if decide (k = i) then nth k q [] ++ msgs else nth k q [].
Proof.
  intros Hi. rewrite !nth_lookup. destruct (decide (k = i)) as [->|Hne].
  - rewrite list_lookup_alter_eq.
    destruct (lookup_lt_is_Some_2 q i Hi) as [x ->]. reflexivity.
  - now rewrite list_lookup_alter_ne by congruence.
Qed.

(** Scheduling at a list of distinct repeat indices appends the messages to
    the slots [(i+1)*C - 1] and touches no other slot. *)
Lemma ring_schedule_from_spec (C : Z) (msgs : list str) (indices : list Z) :
  0 < C -> NoDup indices ->
  forall q : ring,
    (forall i, i ∈ indices -> 0 <= (i + 1) * C - 1 < len q) ->
    exists q', ring_schedule_from C msgs indices q = Ok q' /\
      length q' = length q /\
      forall k : nat,
        ((exists i, i ∈ indices /\ Z.of_nat k = (i + 1) * C - 1) ->
         nth k q' [] = nth k q [] ++ msgs) /\
        ((forall i, i ∈ indices -> Z.of_nat k <> (i + 1) * C - 1) ->
         nth k q' [] = nth k q []).
Proof.
  intros HC Hnd. induction Hnd as [|i rest Hi Hnd IH]; intros q Hrange.
  - exists q. split; [reflexivity|]. split; [reflexivity|].
    intros k. split; [|reflexivity].
    intros (i & Hi & _). now apply elem_of_nil in Hi.
  - simpl. unfold ring_extend.
    assert (Hj : 0 <= (i + 1) * C - 1 < len q) by (apply Hrange; left).
    rewrite py_index_in_range by exact Hj. simpl.
    set (j := Z.to_nat ((i + 1) * C - 1)).
    assert (Hjlt : (j < length q)%nat) by (unfold len in Hj; lia).
    destruct (IH (alter (fun slot => slot ++ msgs) j q)) as (q' & Hq' & Hlen & Hslots).
    { intros i' Hi'. unfold len. rewrite length_alter. apply Hrange. now right. }
    exists q'. split; [exact Hq'|]. split; [now rewrite Hlen, length_alter|].
    intros k. destruct (Hslots k) as [Hdue Hidle]. split.
    + intros (i' & Hi' & Hk). apply elem_of_cons in Hi' as [->|Hi'].
      * rewrite Hidle.
        -- rewrite nth_alter_slot by exact Hjlt.
           destruct (decide (k = j)); [reflexivity|lia].
        -- intros i' Hi' Heq. assert (i' = i) by nia. subst. contradiction.
      * rewrite Hdue by eauto. rewrite nth_alter_slot by exact Hjlt.
        destruct (decide (k = j)) as [->|]; [|reflexivity].
        assert (i' = i) by nia. subst. contradiction.
    + intros Hno. rewrite Hidle.
      * rewrite nth_alter_slot by exact Hjlt.
        destruct (decide (k = j)) as [->|]; [|reflexivity].
        exfalso. apply (Hno i); [left|lia].
      * intros i' Hi'. apply Hno. now right.
Qed.

Lemma ring_schedule_spec (N C : Z) (msgs : list str) (q : ring) :
  0 < N -> 0 < C -> len q = N * C ->
  exists q', ring_schedule N C msgs q = Ok q' /\
    length q' = length q /\
    forall k : nat,
      ((exists i, 0 <= i < N /\ Z.of_nat k = (i + 1) * C - 1) ->
       nth k q' [] = nth k q [] ++ msgs) /\
      ((forall i, 0 <= i < N -> Z.of_nat k <> (i + 1) * C - 1) ->
       nth k q' [] = nth k q []).
Proof.
  intros HN HC Hlen.
  destruct (ring_schedule_from_spec C msgs (seqZ 0 N) HC (NoDup_seqZ 0 N) q)
    as (q' & Hq' & Hl & Hslots).
  { intros i Hi. apply elem_of_seqZ in Hi. nia. }
  exists q'. split; [exact Hq'|]. split; [exact Hl|].
  intros k. destruct (Hslots k) as [Hdue Hidle]. split.
  - intros (i & Hi & Hk). apply Hdue. exists i. split; [|exact Hk].
    apply elem_of_seqZ. lia.
  - intros Hno. apply Hidle. intros i Hi. apply Hno.
    apply elem_of_seqZ in Hi. lia.
Qed.

(** * The main loop *)

Lemma for_each_call_meshtastic (cfg : config) (msgs : list str) :
  forall s : state,
    for_each msgs (call_meshtastic cfg (MESHTASTIC_CMD_TEMPLATE cfg)) s
    = (Ok tt, {| first := first s; message_queue := message_queue s;
                 known_alerts := known_alerts s;
                 dispatched := dispatched s ++ sends cfg msgs |}).
Proof.
  induction msgs as [|m msgs IH]; intros s.
  - destruct s. simpl. now rewrite app_nil_r.
  - simpl. unfold bind, call_meshtastic at 1. rewrite IH. simpl.
    now rewrite <- app_assoc.
Qed.

Lemma send_queued_spec (cfg : config) (s : state) :
  ring_ok cfg s -> 0 < len (message_queue s) \/ repeats cfg = false ->
  exists s', send_queued cfg s = (Ok tt, s') /\
    first s' = first s /\ known_alerts s' = known_alerts s /\
    ring_ok cfg s' /\
    dispatched s' = dispatched s ++
      (if repeats cfg then sends cfg (hd [] (message_queue s)) else []).
Proof.
  intros Hok Hq. unfold send_queued. destruct (repeats cfg) eqn:Hrep.
  - destruct Hq as [Hq|Hq]; [|discriminate].
    destruct s as [f q k d]. simpl in *.
    destruct q as [|h t]; [unfold len in Hq; simpl in Hq; lia|].
    unfold bind, get, lift, set_message_queue. simpl.
    rewrite for_each_call_meshtastic. simpl.
    eexists. split; [reflexivity|]. simpl. repeat split.
    intros _. unfold ring_ok in Hok. simpl in Hok. rewrite <- (Hok Hrep).
    unfold ring_append, len. simpl. rewrite length_app. simpl. lia.
  - exists s. unfold ret. repeat split; try assumption. now rewrite app_nil_r.
Qed.

Lemma truncate_utf8_returns (M : Z) (s : str) (B : Z) :
  encodable s -> exists cs, truncate_utf8 M s B = Ok cs.
Proof.
  intros [sb Hsb]. destruct (Z.le_gt_cases (len sb) B) as [HB|HB].
  - exists [s]. now apply (truncate_utf8_fits M s B sb).
  - destruct (truncate_utf8_segmented M s B sb Hsb HB) as (groups & _ & Heq & _).
    eauto.
Qed.

Lemma filter_warning_areas_keys (G : Z) (aid : str) (was : list warning_area) :
  forall acc, keys_match acc -> keys_match (filter_warning_areas G aid was acc).
Proof.
  induction was as [|wa was IH]; intros acc Hacc; simpl; [exact Hacc|].
  destruct (bool_decide (warningLevel_code wa = lit "MESSAGE")); [now apply IH|].
  destruct (existsb (fun a => a =? G) (affectedAreas wa)); [|now apply IH].
  apply IH. intros k. simpl. rewrite elem_of_union, elem_of_singleton, (Hacc k).
  split.
  - intros [->|(a & Ha & Hk)].
    + eexists. split; [apply in_or_app; right; left; reflexivity|reflexivity].
    + exists a. split; [apply in_or_app; now left|exact Hk].
  - intros (a & Ha & Hk). apply in_app_or in Ha as [Ha|[<-|[]]].
    + right. eauto.
    + left. now rewrite <- Hk.
Qed.

Lemma filter_alerts_keys (G : Z) (data : list alert) :
  forall acc, keys_match acc -> keys_match (filter_alerts G data acc).
Proof.
  induction data as [|a data IH]; intros acc Hacc; simpl; [exact Hacc|].
  apply IH. now apply filter_warning_areas_keys.
Qed.

Lemma fetched_keys_found (G : Z) (data : list alert) (id : str) :
  id ∈ fst (filter_alerts G data (∅, [])) ->
  exists a, find_alert (snd (filter_alerts G data (∅, []))) id = Ok a /\
            In a (snd (filter_alerts G data (∅, []))).
Proof.
  intros Hid.
  assert (Hk : keys_match (filter_alerts G data (∅, []))).
  { apply filter_alerts_keys. intros k. simpl. split.
    - intros Hk. now apply not_elem_of_empty in Hk.
    - intros (a & [] & _). }
  apply Hk in Hid as (a & Ha & Hida). unfold find_alert.
  destruct (List.find _ _) as [a'|] eqn:Hfind.
  - exists a'. split; [reflexivity|]. now apply find_some in Hfind.
  - exfalso. apply (find_none _ _ Hfind) in Ha.
    apply bool_decide_eq_false in Ha. contradiction.
Qed.

Lemma repeats_true (cfg : config) :
  repeats cfg = true -> 0 < REPEAT_NUM_MSG cfg /\ 0 < REPEAT_NUM_CYCL cfg.
Proof.
  unfold repeats. intros H. apply andb_true_iff in H as [H1 H2].
  rewrite Z.gtb_ltb in H1, H2. apply Z.ltb_lt in H1, H2. now split.
Qed.

Lemma ring_ok_initial (cfg : config) : ring_ok cfg (initial cfg).
Proof.
  intros Hrep. destruct (repeats_true cfg Hrep) as [HN HC].
  unfold len. simpl. rewrite length_new_ring. nia.
Qed.

Section DriverFacts.

Variable format_time : str -> result str.

Lemma announce_spec (cfg : config) (data : list warning_area) (id : str)
    (s : state) (a : warning_area) (message : str) (cs : list str) :
  find_alert data id = Ok a ->
  format_message format_time a = Ok message ->
  truncate_utf8 (MAX_MESSAGES cfg) message 200 = Ok cs ->
  ring_ok cfg s ->
  exists s', announce format_time cfg data id s = (Ok tt, s') /\
    first s' = first s /\ known_alerts s' = known_alerts s /\
    ring_ok cfg s' /\
    dispatched s' = dispatched s ++ sends cfg cs.
Proof.
  intros Hfind Hfmt Htr Hok. unfold announce, bind, lift.
  rewrite Hfind, Hfmt, Htr, for_each_call_meshtastic.
  destruct (repeats cfg) eqn:Hrep.
  - destruct (repeats_true cfg Hrep) as [HN HC].
    destruct (ring_schedule_spec (REPEAT_NUM_MSG cfg) (REPEAT_NUM_CYCL cfg) cs
                (message_queue s) HN HC (Hok Hrep)) as (q' & Hq' & Hlen & _).
    unfold get, set_message_queue. simpl. rewrite Hq'.
    eexists. split; [reflexivity|]. simpl. repeat split.
    intros _. simpl. unfold len. rewrite Hlen. exact (Hok Hrep).
  - unfold ret. eexists. split; [reflexivity|]. simpl. repeat split.
    intros Hrep'. congruence.
Qed.

Lemma messages_for_eq (cfg : config) (data : list warning_area) (id : str)
    (a : warning_area) (message : str) (cs : list str) :
  find_alert data id = Ok a ->
  format_message format_time a = Ok message ->
  truncate_utf8 (MAX_MESSAGES cfg) message 200 = Ok cs ->
  messages_for format_time cfg data id = cs.
Proof. intros H1 H2 H3. unfold messages_for. now rewrite H1, H2, H3. Qed.

Lemma for_each_announce (cfg : config) (data : list warning_area)
    (ids : list str) :
  renderable format_time data ->
  (forall id, In id ids -> exists a, find_alert data id = Ok a /\ In a data) ->
  forall s, ring_ok cfg s ->
  exists s', for_each ids (announce format_time cfg data) s = (Ok tt, s') /\
    first s' = first s /\ known_alerts s' = known_alerts s /\
    ring_ok cfg s' /\
    dispatched s' = dispatched s ++
      concat (map (fun id => sends cfg (messages_for format_time cfg data id)) ids).
Proof.
  intros Hrender. induction ids as [|id ids IH]; intros Hfound s Hok.
  - exists s. simpl. unfold ret. repeat split; try assumption. now rewrite app_nil_r.
  - destruct (Hfound id (or_introl eq_refl)) as (a & Hfind & Ha).
    destruct (Hrender a Ha) as (message & Hfmt & Henc).
    destruct (truncate_utf8_returns (MAX_MESSAGES cfg) message 200 Henc) as [cs Hcs].
    destruct (announce_spec cfg data id s a message cs Hfind Hfmt Hcs Hok)
      as (s1 & Hs1 & Hf1 & Hk1 & Hok1 & Hd1).
    destruct (IH (fun id' H => Hfound id' (or_intror H)) s1 Hok1)
      as (s2 & Hs2 & Hf2 & Hk2 & Hok2 & Hd2).
    exists s2. simpl. unfold bind at 1. rewrite Hs1. split; [exact Hs2|].
    split; [congruence|]. split; [congruence|]. split; [exact Hok2|].
    rewrite Hd2, Hd1, (messages_for_eq cfg data id a message cs Hfind Hfmt Hcs).
    now rewrite <- app_assoc.
Qed.

End DriverFacts.

Section CycleFacts.

Variable format_time : str -> result str.

Lemma send_queued_ready (cfg : config) (s : state) :
  ring_ok cfg s -> 0 < len (message_queue s) \/ repeats cfg = false.
Proof.
  intros Hok. destruct (repeats cfg) eqn:Hrep; [left|now right].
  destruct (repeats_true cfg Hrep). rewrite (Hok Hrep). nia.
Qed.

(** One cycle on a parsed feed: what is sent, and the state it leaves. *)
Lemma cycle_spec (cfg : config) (data : list alert) (s : state) :
  let ids := fst (filter_alerts (GEOCODE cfg) data (∅, [])) in
  let filtered := snd (filter_alerts (GEOCODE cfg) data (∅, [])) in
  ring_ok cfg s ->
  (first s = false -> renderable format_time filtered) ->
  exists s', cycle format_time cfg (Body data) s = (Ok tt, s') /\
    first s' = false /\ known_alerts s' = ids /\ ring_ok cfg s' /\
    dispatched s' = dispatched s ++
      (if repeats cfg then sends cfg (hd [] (message_queue s)) else []) ++
      (if first s then []
       else concat (map (fun id => sends cfg (messages_for format_time cfg filtered id))
                        (elements (ids ∖ known_alerts s)))).
Proof.
  intros ids filtered Hok Hrender.
  destruct (send_queued_spec cfg s Hok (send_queued_ready cfg s Hok))
    as (s1 & Hs1 & Hf1 & Hk1 & Hok1 & Hd1).
  unfold cycle. unfold bind at 1. rewrite Hs1.
  unfold bind at 1. unfold lift at 1. unfold fetch_alerts.
  fold ids filtered.
  rewrite (surjective_pairing (filter_alerts (GEOCODE cfg) data (∅, []))).
  fold ids filtered.
  unfold bind at 1. unfold lift at 1. unfold unpack2.
  unfold bind at 1. unfold get at 1.
  cbv beta iota zeta. unfold fst at 1 2, snd at 1.
  rewrite Hf1, Hk1.
  destruct (first s) eqn:Hfirst.
  - unfold negb, ret, bind, set_known_alerts, get, set_first. simpl. rewrite Hf1.
    eexists. split; [reflexivity|]. simpl. repeat split.
    + exact Hok1.
    + now rewrite Hd1, !app_nil_r.
  - unfold negb. unfold bind at 1.
    destruct (for_each_announce format_time cfg filtered
                (elements (ids ∖ known_alerts s)) (Hrender eq_refl)) with (s := s1)
      as (s2 & Hs2 & Hf2 & Hk2 & Hok2 & Hd2).
    { intros id Hid. apply list_elem_of_In, elem_of_elements, elem_of_difference in Hid.
      destruct Hid as [Hid _]. now apply fetched_keys_found. }
    { exact Hok1. }
    rewrite Hs2. unfold bind, set_known_alerts, get, set_first, ret. simpl.
    rewrite Hf2, Hf1. eexists. split; [reflexivity|]. simpl. repeat split.
    + exact Hok2.
    + now rewrite Hd2, Hd1, <- app_assoc.
Qed.

End CycleFacts.

Lemma cycle_request_failed (format_time : str -> result str)
    (cfg : config) (s : state) :
  ring_ok cfg s -> fst (cycle format_time cfg RequestFailed s) = Raised ValueError.
Proof.
  intros Hok.
  destruct (send_queued_spec cfg s Hok (send_queued_ready cfg s Hok)) as (s1 & Hs1 & _).
  unfold cycle. unfold bind at 1. rewrite Hs1. reflexivity.
Qed.

Lemma cycle_body_not_json (format_time : str -> result str)
    (cfg : config) (s : state) :
  ring_ok cfg s -> fst (cycle format_time cfg BodyNotJson s) = Raised JSONDecodeError.
Proof.
  intros Hok.
  destruct (send_queued_spec cfg s Hok (send_queued_ready cfg s Hok)) as (s1 & Hs1 & _).
  unfold cycle. unfold bind at 1. rewrite Hs1. reflexivity.
Qed.

Lemma for_each_raised {A : Type} (body : A -> M unit) (x : A) (rest : list A)
    (s : state) (e : exn) :
  fst (body x s) = Raised e -> fst (for_each (x :: rest) body s) = Raised e.
Proof.
  simpl. unfold bind. destruct (body x s) as [[u|e'] s']; simpl; [discriminate|].
  intros H. exact H.
Qed.

(** * The main loop: the claims *)

(** C2 (the code departs from the claim).  Claim: after any transport or
    parse failure the loop treats the cycle as one without alerts and goes
    on.  When the request fails, [fetch_alerts] returns the lone [set()],
    the tuple assignment of line 163 raises [ValueError], and the loop ends
    there, whatever replies would follow; when the body is not JSON, the
    exception of [response.json()], raised outside the [try], ends the loop
    in the same way. *)
Theorem failed_fetch_stops_the_loop (format_time : str -> result str)
    (cfg : config) (rest : list reply) :
  fetch_alerts (GEOCODE cfg) RequestFailed = Ok EmptySet /\
  fst (main format_time cfg (RequestFailed :: rest)) = Raised ValueError /\
  fst (main format_time cfg (BodyNotJson :: rest)) = Raised JSONDecodeError.
Proof.
  split; [reflexivity|]. unfold main. split; apply for_each_raised.
  - apply cycle_request_failed, ring_ok_initial.
  - apply cycle_body_not_json, ring_ok_initial.
Qed.

(** C8, as stated, fails: in a dry run the alerts of the very first fetch
    are dispatched. *)
Lemma dry_run_dispatches_on_first_cycle :
  ~ (forall (format_time : str -> result str) (cfg : config)
            (data : list alert) (s' : state),
       cycle format_time cfg (Body data) (initial cfg) = (Ok tt, s') ->
       dispatched s' = []).
Proof.
  intros H.
  specialize (H sample_format_time (sample_config true) [wind_warning]
                (snd (cycle sample_format_time (sample_config true)
                        (Body [wind_warning]) (initial (sample_config true))))).
  vm_compute in H. specialize (H eq_refl). discriminate.
Qed.

(** C8, amended.  Outside a dry run, the very first cycle dispatches
    nothing for the alerts of the first fetch and records their keys as
    known.  In every cycle that starts with [first] false, which is every
    later cycle and, in a dry run, the first one too, each fetched alert
    whose key is not in the known set is dispatched in that same cycle:
    its message is formatted and segmented, and every chunk is handed to
    the transport, in order. *)
Theorem bootstrap_then_dispatch (format_time : str -> result str)
    (cfg : config) (data : list alert) (s : state) :
  let ids := fst (filter_alerts (GEOCODE cfg) data (∅, [])) in
  let filtered := snd (filter_alerts (GEOCODE cfg) data (∅, [])) in
  (DRY_RUN cfg = false ->
   exists s', cycle format_time cfg (Body data) (initial cfg) = (Ok tt, s') /\
     dispatched s' = [] /\ known_alerts s' = ids /\ first s' = false) /\
  (first s = false -> ring_ok cfg s -> renderable format_time filtered ->
   exists s', cycle format_time cfg (Body data) s = (Ok tt, s') /\
     first s' = false /\
     forall id, id ∈ ids -> id ∉ known_alerts s ->
       exists a message cs before after,
         find_alert filtered id = Ok a /\
         format_message format_time a = Ok message /\
         truncate_utf8 (MAX_MESSAGES cfg) message 200 = Ok cs /\
         dispatched s' = dispatched s ++ before ++ sends cfg cs ++ after) /\
  (DRY_RUN cfg = true -> first (initial cfg) = false).
Proof.
  intros ids filtered. split; [|split].
  - intros Hdry.
    destruct (cycle_spec format_time cfg data (initial cfg) (ring_ok_initial cfg))
      as (s' & Hs' & Hf & Hk & _ & Hd).
    { simpl. rewrite Hdry. discriminate. }
    exists s'. split; [exact Hs'|]. split; [|split; assumption].
    rewrite Hd. simpl. rewrite Hdry. simpl.
    destruct (repeats cfg); [|reflexivity].
    destruct (new_ring (REPEAT_NUM_MSG cfg) (REPEAT_NUM_CYCL cfg)) as [|h t] eqn:Hq;
      [reflexivity|].
    pose proof (nth_new_ring (REPEAT_NUM_MSG cfg) (REPEAT_NUM_CYCL cfg) 0) as H0.
    rewrite Hq in H0. simpl in H0. subst h. reflexivity.
  - intros Hfirst Hok Hrender. subst ids filtered.
    destruct (cycle_spec format_time cfg data s Hok (fun _ => Hrender))
      as (s' & Hs' & Hf & _ & _ & Hd).
    exists s'. split; [exact Hs'|]. split; [exact Hf|].
    intros id Hid Hnew.
    destruct (fetched_keys_found (GEOCODE cfg) data id Hid) as (a & Hfind & Ha).
    destruct (Hrender a Ha) as (message & Hfmt & Henc).
    destruct (truncate_utf8_returns (MAX_MESSAGES cfg) message 200 Henc) as [cs Hcs].
    assert (Hin : In id (elements (fst (filter_alerts (GEOCODE cfg) data (∅, []))
                                   ∖ known_alerts s))).
    { apply list_elem_of_In, elem_of_elements, elem_of_difference. now split. }
    apply in_split in Hin as (l1 & l2 & Hsplit).
    rewrite Hfirst, Hsplit, map_app, concat_app in Hd. simpl in Hd.
    rewrite (messages_for_eq format_time cfg _ id a message cs Hfind Hfmt Hcs) in Hd.
    exists a, message, cs.
    exists ((if repeats cfg then sends cfg (hd [] (message_queue s)) else [])
            ++ concat (map (fun id' => sends cfg (messages_for format_time cfg
                          (snd (filter_alerts (GEOCODE cfg) data (∅, []))) id')) l1)).
    exists (concat (map (fun id' => sends cfg (messages_for format_time cfg
                          (snd (filter_alerts (GEOCODE cfg) data (∅, []))) id')) l2)).
    split; [exact Hfind|]. split; [exact Hfmt|]. split; [exact Hcs|].
    rewrite Hd. now rewrite <- !app_assoc.
  - intros Hdry. simpl. now rewrite Hdry.
Qed.

Lemma bootstrap_then_dispatch_witness :
  (exists s',
     cycle sample_format_time (sample_config false) (Body [wind_warning])
       (initial (sample_config false)) = (Ok tt, s') /\
     dispatched s' = [] /\
     known_alerts s' = fst (filter_alerts 1 [wind_warning] (∅, [])) /\
     first s' = false) /\
  (exists s',
     cycle sample_format_time (sample_config false) (Body [wind_warning])
       (snd (cycle sample_format_time (sample_config false) (Body [])
               (initial (sample_config false)))) = (Ok tt, s') /\
     first s' = false /\
     forall id, id ∈ fst (filter_alerts 1 [wind_warning] (∅, [])) ->
       id ∉ known_alerts
              (snd (cycle sample_format_time (sample_config false) (Body [])
                      (initial (sample_config false)))) ->
       exists a message cs before after,
         find_alert (snd (filter_alerts 1 [wind_warning] (∅, []))) id = Ok a /\
         format_message sample_format_time a = Ok message /\
         truncate_utf8 2 message 200 = Ok cs /\
         dispatched s'
         = dispatched
             (snd (cycle sample_format_time (sample_config false) (Body [])
                     (initial (sample_config false))))
           ++ before ++ sends (sample_config false) cs ++ after) /\
  first (initial (sample_config true)) = false.
Proof.
  split; [|split].
  - apply (proj1 (bootstrap_then_dispatch sample_format_time (sample_config false)
                    [wind_warning] (initial (sample_config false)))).
    reflexivity.
  - apply (proj1 (proj2 (bootstrap_then_dispatch sample_format_time
                           (sample_config false) [wind_warning]
                           (snd (cycle sample_format_time (sample_config false)
                                   (Body []) (initial (sample_config false))))))).
    + vm_compute. reflexivity.
    + intros _. vm_compute. reflexivity.
    + intros a Ha. vm_compute in Ha. destruct Ha as [<-|[]].
      eexists. split; [vm_compute; reflexivity|].
      eexists. vm_compute. reflexivity.
  - apply (proj2 (proj2 (bootstrap_then_dispatch sample_format_time
                           (sample_config true) [] (initial (sample_config true))))).
    reflexivity.
Defined.

(** * Byte lengths *)

Lemma encode_char_width (c : Z) (b : list Z) :
  encode_char c = Ok b -> len b = char_width c.
Proof.
  unfold encode_char, char_width.
  destruct (c <? 0); [discriminate|].
  destruct (c <? 128); [now intros [= <-]|].
  destruct (c <? 2048); [now intros [= <-]|].
  destruct (c <? 65536).
  - destruct ((55296 <=? c) && (c <=? 57343)); [discriminate|now intros [= <-]].
  - destruct (c <=? 1114111); [now intros [= <-]|discriminate].
Qed.

Lemma encode_byte_length (s : str) :
  forall b, encode s = Ok b -> len b = byte_length s.
Proof.
  induction s as [|c s IH]; simpl; intros b.
  - now intros [= <-].
  - destruct (encode_char c) as [bc|] eqn:Hc; simpl; [|discriminate].
    destruct (encode s) as [bs|]; simpl; [|discriminate].
    intros [= <-]. unfold len in *. rewrite length_app, Nat2Z.inj_add.
    rewrite (IH bs eq_refl). now rewrite <- (encode_char_width c bc Hc).
Qed.

Lemma byte_length_app (a b : str) :
  byte_length (a ++ b) = byte_length a + byte_length b.
Proof. induction a as [|c a IH]; simpl; lia. Qed.

Lemma byte_length_nonneg (s : str) : 0 <= byte_length s.
Proof.
  induction s as [|c s IH]; simpl; [lia|]. unfold char_width.
  repeat match goal with |- context [if ?b then _ else _] => destruct b end; lia.
Qed.

Lemma char_width_ascii (a : ascii) :
  (N_of_ascii a < 128)%N -> char_width (Z.of_N (N_of_ascii a)) = 1.
Proof.
  intros H. unfold char_width. destruct (Z.ltb_spec (Z.of_N (N_of_ascii a)) 128); [reflexivity|lia].
Qed.

Lemma lit_String (a : ascii) (s : string) :
  lit (String a s) = Z.of_N (N_of_ascii a) :: lit s.
Proof. reflexivity. Qed.

Lemma byte_length_digits (d : Decimal.uint) :
  byte_length (lit (NilEmpty.string_of_uint d)) = Z.of_nat (Decimal.nb_digits d).
Proof.
  induction d; simpl Decimal.nb_digits; [reflexivity|..];
    rewrite Nat2Z.inj_succ, <- IHd;
    simpl NilEmpty.string_of_uint; rewrite lit_String; cbn [byte_length];
    match goal with
    | |- char_width ?c + _ = _ =>
        replace (char_width c) with 1 by (vm_compute; reflexivity)
    end; lia.
Qed.

Lemma nb_digits_succ (d : Decimal.uint) :
  (Decimal.nb_digits d <= Decimal.nb_digits (Decimal.Little.succ d))%nat.
Proof. induction d; simpl; lia. Qed.

Lemma nb_digits_to_uint_succ (p : positive) :
  (Decimal.nb_digits (Pos.to_uint p) <= Decimal.nb_digits (Pos.to_uint (Pos.succ p)))%nat.
Proof.
  unfold Pos.to_uint. rewrite !nb_digits_rev.
  change (Pos.to_little_uint (Pos.succ p)) with (Unsigned.to_lu (N.succ (Npos p))).
  rewrite Unsigned.to_lu_succ. apply nb_digits_succ.
Qed.

Lemma nb_digits_to_uint_le (p q : positive) :
  (p <= q)%positive ->
  (Decimal.nb_digits (Pos.to_uint p) <= Decimal.nb_digits (Pos.to_uint q))%nat.
Proof.
  intros H. apply Pos.le_lteq in H as [H| ->]; [|lia].
  revert q H. apply Pos.lt_ind.
  - apply nb_digits_to_uint_succ.
  - intros m _ IH. etransitivity; [exact IH|apply nb_digits_to_uint_succ].
Qed.

Lemma str_of_Z_pos (p : positive) :
  byte_length (str_of_Z (Zpos p)) = Z.of_nat (Decimal.nb_digits (Pos.to_uint p)).
Proof.
  unfold str_of_Z. simpl Z.to_int. simpl NilZero.string_of_int.
  unfold NilZero.string_of_uint.
  pose proof (Unsigned.to_uint_nonnil p) as Hnn.
  destruct (Pos.to_uint p) eqn:E; try contradiction; rewrite <- E; apply byte_length_digits.
Qed.

Lemma byte_length_str_of_Z_le (i n : Z) :
  1 <= i <= n -> byte_length (str_of_Z i) <= byte_length (str_of_Z n).
Proof.
  intros H. destruct i as [|p|p]; try lia. destruct n as [|q|q]; try lia.
  rewrite !str_of_Z_pos. apply inj_le, nb_digits_to_uint_le. lia.
Qed.

(** * Segmentation: the byte budget *)

Lemma char_width_nonneg (c : Z) : 0 <= char_width c.
Proof.
  unfold char_width.
  repeat match goal with |- context [if ?b then _ else _] => destruct b end; lia.
Qed.

Lemma byte_length_rev (s : str) : byte_length (rev s) = byte_length s.
Proof.
  induction s as [|c s IH]; [reflexivity|]. simpl.
  rewrite byte_length_app, IH. simpl. lia.
Qed.

Lemma byte_length_lstrip (s : str) : byte_length (lstrip s) <= byte_length s.
Proof.
  induction s as [|c s IH]; simpl; [lia|].
  destruct (isspace c); simpl; [|lia]. pose proof (char_width_nonneg c). lia.
Qed.

Lemma byte_length_strip (s : str) : byte_length (strip s) <= byte_length s.
Proof.
  unfold strip, rstrip. rewrite byte_length_rev.
  etransitivity; [apply byte_length_lstrip|]. rewrite byte_length_rev.
  apply byte_length_lstrip.
Qed.

Lemma encodable_Forall (s : str) :
  encodable s <-> Forall (fun c => exists b, encode_char c = Ok b) s.
Proof.
  induction s as [|c s IH].
  - split; [constructor|intros _; apply encodable_nil].
  - rewrite encodable_cons, Forall_cons, IH. reflexivity.
Qed.

Lemma encodable_lstrip (s : str) : encodable s -> encodable (lstrip s).
Proof.
  induction s as [|c s IH]; simpl; [auto|]. intros H.
  destruct (isspace c); [|exact H]. apply IH. now apply encodable_cons in H.
Qed.

Lemma encodable_rev (s : str) : encodable s -> encodable (rev s).
Proof. rewrite !encodable_Forall. apply Forall_rev. Qed.

Lemma encodable_strip (s : str) : encodable s -> encodable (strip s).
Proof.
  intros H. unfold strip, rstrip.
  now apply encodable_rev, encodable_lstrip, encodable_rev, encodable_lstrip.
Qed.

Lemma str_join_snoc (ws : list str) (w : str) :
  ws <> [] -> str_join (ws ++ [w]) = str_join ws ++ lit " " ++ w.
Proof.
  induction ws as [|a ws IH]; [contradiction|]. intros _.
  destruct ws as [|b ws]; [reflexivity|].
  change (str_join ((a :: b :: ws) ++ [w]))
    with (a ++ lit " " ++ str_join ((b :: ws) ++ [w])).
  rewrite IH by discriminate.
  change (str_join (a :: b :: ws)) with (a ++ lit " " ++ str_join (b :: ws)).
  now rewrite <- !app_assoc.
Qed.

Lemma byte_length_str_join_snoc (ws : list str) (w : str) :
  byte_length (str_join (ws ++ [w])) <= byte_length (str_join ws) + 1 + byte_length w.
Proof.
  destruct ws as [|a ws].
  - simpl. lia.
  - rewrite str_join_snoc by discriminate. rewrite !byte_length_app.
    change (byte_length (lit " ")) with 1. lia.
Qed.

Lemma encodable_str_join (ws : list str) :
  Forall encodable ws -> encodable (str_join ws).
Proof.
  induction 1 as [|w ws Hw Hws IH]; [apply encodable_nil|].
  destruct ws as [|b ws]; [exact Hw|].
  change (str_join (w :: b :: ws)) with (w ++ lit " " ++ str_join (b :: ws)).
  apply encodable_app. split; [exact Hw|].
  apply encodable_app. split; [apply encodable_lit|exact IH].
Qed.

Lemma truncate_utf8_loop_sizes (M B sl : Z) (words : list str) :
  Forall encodable words ->
  Forall (fun w => byte_length w <= B - sl - 6) words ->
  forall st,
    Forall (fun c => byte_length c <= B - sl) (chunks st) ->
    byte_length (str_join (current_words st)) <= current_size st ->
    current_size st <= B - sl ->
    (len (chunks st) = M - 1 -> current_size st <= B - sl - 6) ->
    0 <= extra_suffix_length st ->
    forall e, truncate_utf8_loop M B sl words st = Ok e ->
      Forall (fun c => byte_length c <= B - sl) (chunks (exit_state e)) /\
      byte_length (str_join (current_words (exit_state e))) <= B - sl.
Proof.
  intros Henc Hwords. induction Henc as [|word rest [wb Hwb] Hrest IH];
    intros st Hch Hjoin Hsize Hlast Hesl e He.
  - simpl in He. injection He as <-. simpl. split; [exact Hch|lia].
  - apply Forall_cons in Hwords as [Hw Hwords]. specialize (IH Hwords).
    pose proof (encode_byte_length word wb Hwb) as Hlen.
    pose proof (byte_length_nonneg (str_join (current_words st))) as Hnn.
    simpl in He. rewrite Hwb in He. simpl in He.
    destruct (len wb >? B); [now apply (IH st)|].
    set (esl := if len (chunks st) =? M - 1 then 6 else extra_suffix_length st) in *.
    assert (Hesl' : 0 <= esl) by (unfold esl; destruct (_ =? _); lia).
    assert (Hesl6 : len (chunks st) = M - 1 -> esl = 6).
    { intros H. unfold esl. now rewrite H, Z.eqb_refl. }
    destruct (Z.leb_spec (current_size st + (1 + len wb)) (B - sl - esl)) as [Hfit|Hfit].
    + apply IH in He; [exact He|..]; simpl; try assumption.
      * pose proof (byte_length_str_join_snoc (current_words st) word). lia.
      * lia.
      * intros H. specialize (Hesl6 H). lia.
    + destruct (Z.eqb_spec (len (chunks st ++ [str_join (current_words st)])) M)
        as [HM|HM].
      * injection He as <-. simpl. rewrite add_to_last_snoc. split; [|simpl; lia].
        apply Forall_app. split; [exact Hch|]. constructor; [|constructor].
        rewrite byte_length_app. change (byte_length marker) with 6.
        assert (len (chunks st) = M - 1).
        { unfold len in *. rewrite length_app in HM. simpl in HM. lia. }
        specialize (Hlast H). lia.
      * apply IH in He; [exact He|..]; simpl.
        -- apply Forall_app. split; [exact Hch|]. constructor; [lia|constructor].
        -- lia.
        -- lia.
        -- intros _. lia.
        -- exact Hesl'.
Qed.

Lemma byte_length_positional_suffix (i n : Z) :
  byte_length (positional_suffix i n)
  = 2 + byte_length (str_of_Z i) + byte_length (str_of_Z n).
Proof.
  unfold positional_suffix. rewrite !byte_length_app.
  change (byte_length (lit " ")) with 1. change (byte_length (lit "/")) with 1. lia.
Qed.

Lemma byte_length_positional_suffix_le (i n M : Z) :
  1 <= i <= n -> n <= M ->
  byte_length (positional_suffix i n) <= byte_length (positional_suffix M M).
Proof.
  intros Hi Hn. rewrite !byte_length_positional_suffix.
  pose proof (byte_length_str_of_Z_le i M ltac:(lia)).
  pose proof (byte_length_str_of_Z_le n M ltac:(lia)). lia.
Qed.

Lemma encodable_add_to_last (l : list str) (x : str) :
  encodable x -> Forall encodable l -> Forall encodable (add_to_last l x).
Proof.
  intros Hx. induction 1 as [|c l Hc Hl IH]; [constructor|].
  destruct l as [|d l].
  - simpl. constructor; [|constructor]. apply encodable_app. now split.
  - change (add_to_last (c :: d :: l) x) with (c :: add_to_last (d :: l) x).
    constructor; assumption.
Qed.

Lemma encodable_groups (B : Z) (words : list str) (gs : list (list str)) (rest : list str) :
  Forall encodable words ->
  concat gs ++ rest = kept_words B words ->
  Forall encodable (map str_join gs) /\ Forall encodable rest.
Proof.
  intros Hwords Hcat.
  assert (Hall : Forall encodable (concat gs ++ rest)).
  { rewrite Hcat. apply List.Forall_forall. intros w Hw.
    apply kept_words_In in Hw as [Hw _].
    now apply (proj1 (List.Forall_forall _ _) Hwords). }
  apply Forall_app in Hall as [Hgs Hrest]. split; [|exact Hrest].
  clear Hcat. induction gs as [|g gs IH]; [constructor|].
  simpl in Hgs. apply Forall_app in Hgs as [Hg Hgs].
  constructor; [now apply encodable_str_join|now apply IH].
Qed.

Lemma In_number_chunks (cs : list str) (c : str) :
  In c (number_chunks cs) ->
  exists (i : nat) (x : str), cs !! i = Some x /\
    c = strip x ++ positional_suffix (Z.of_nat i + 1) (len cs).
Proof.
  intros Hc. apply list_elem_of_In, list_elem_of_lookup in Hc as [i Hi].
  unfold number_chunks in Hi. rewrite list_lookup_imap in Hi.
  destruct (cs !! i) as [x|] eqn:Hx; [|discriminate].
  injection Hi as <-. eauto.
Qed.

(** The texts of the chunks before numbering. *)
Lemma truncate_utf8_texts (M : Z) (s : str) (B : Z) (sb suf : list Z) :
  encode s = Ok sb -> B < len sb ->
  encode (positional_suffix M M) = Ok suf ->
  exists texts,
    truncate_utf8 M s B = Ok (number_chunks texts) /\
    Forall encodable texts /\
    (1 <= M -> len texts <= M) /\
    (Forall (fun w => byte_length w <= B - len suf - 6) (split_space s) ->
     Forall (fun c => byte_length c <= B - len suf) texts).
Proof.
  intros Hsb HB Hsuf.
  pose proof (split_space_encodable s (ex_intro _ sb Hsb)) as Hwords.
  destruct (truncate_utf8_loop_spec M B (len suf) _ Hwords loop_start [] eq_refl)
    as (e & He & Hpost).
  { intros HM. unfold len. simpl. lia. }
  unfold truncate_utf8. rewrite Hsb. unfold rbind at 1.
  destruct (Z.leb_spec (len sb) B) as [|_]; [lia|].
  rewrite Hsuf. unfold rbind at 1. rewrite He. unfold rbind.
  assert (Hsizes :
    Forall (fun w => byte_length w <= B - len suf - 6) (split_space s) ->
    Forall (fun c => byte_length c <= B - len suf) (chunks (exit_state e)) /\
    byte_length (str_join (current_words (exit_state e))) <= B - len suf).
  { intros Hw.
    assert (H0 : 0 <= B - len suf - 6).
    { destruct (split_space s) as [|w ws] eqn:Hsp;
        [now apply split_space_nonempty in Hsp|].
      apply Forall_cons in Hw as [Hw _]. pose proof (byte_length_nonneg w). lia. }
    apply (truncate_utf8_loop_sizes M B (len suf) _ Hwords Hw loop_start);
      simpl; try assumption; try lia. constructor. }
  unfold finalize. destruct e as [st'|st']; simpl in Hpost, Hsizes; simpl exit_state.
  - destruct Hpost as (gs' & Hch & Hcat & Hlen).
    assert (Hcat' : concat gs' ++ current_words st' = kept_words B (split_space s))
      by exact Hcat.
    destruct (encodable_groups B _ gs' _ Hwords Hcat') as [Hgs Hcw].
    destruct (current_words st') as [|w cw] eqn:Hcweq.
    + exists (chunks st'). split; [reflexivity|]. rewrite Hch at 1.
      split; [exact Hgs|]. split; [intros HM; specialize (Hlen HM); lia|].
      intros Hw. now apply Hsizes.
    + exists (chunks st' ++ [str_join (w :: cw)]). split; [reflexivity|].
      split; [|split].
      * apply Forall_app. split; [now rewrite Hch|].
        constructor; [now apply encodable_str_join|constructor].
      * intros HM. specialize (Hlen HM). unfold len in *.
        rewrite length_app. simpl. lia.
      * intros Hw. destruct (Hsizes Hw) as [H1 H2].
        apply Forall_app. split; [exact H1|]. constructor; [exact H2|constructor].
  - destruct Hpost as (gs' & dropped & Hch & Hcw & Hcat & _ & _ & Hlen).
    rewrite Hcw. exists (chunks st'). split; [reflexivity|]. split; [|split].
    + rewrite Hch. apply encodable_add_to_last; [apply encodable_lit|].
      now destruct (encodable_groups B _ gs' dropped Hwords Hcat).
    + intros _. lia.
    + intros Hw. now apply Hsizes.
Qed.

(** X1.  With at least one message allowed, if every word of the text is
    at most [max_bytes] minus the width of the suffix " N/N" minus the 6
    bytes of the marker, then [truncate_utf8] returns at most
    [MAX_MESSAGES] chunks and every chunk, with its suffix and marker, is
    at most [max_bytes] bytes long. *)
Theorem chunks_within_budget (M : Z) (s : str) (B : Z) (sb suf : list Z) :
  1 <= M ->
  encode s = Ok sb ->
  encode (positional_suffix M M) = Ok suf ->
  (forall w wb, In w (split_space s) -> encode w = Ok wb ->
                len wb <= B - len suf - 6) ->
  exists cs, truncate_utf8 M s B = Ok cs /\
    len cs <= M /\
    forall c, In c cs -> exists cb, encode c = Ok cb /\ len cb <= B.
Proof.
  intros HM Hsb Hsuf Hw. destruct (Z.le_gt_cases (len sb) B) as [HB|HB].
  - exists [s]. split; [now apply (truncate_utf8_fits M s B sb)|].
    split; [unfold len; simpl; lia|].
    intros c [<-|[]]. eauto.
  - destruct (truncate_utf8_texts M s B sb suf Hsb HB Hsuf)
      as (texts & Heq & Henc & Hcount & Hsizes).
    specialize (Hcount HM).
    assert (Hbl : Forall (fun c => byte_length c <= B - len suf) texts).
    { apply Hsizes. apply List.Forall_forall. intros w Hin.
      destruct (split_space_word_len s sb Hsb w Hin) as (wb & Hwb & _).
      rewrite <- (encode_byte_length w wb Hwb). exact (Hw w wb Hin Hwb). }
    exists (number_chunks texts). split; [exact Heq|].
    split; [now rewrite len_number_chunks|].
    intros c Hc. apply In_number_chunks in Hc as (i & x & Hx & ->).
    assert (Hi : Z.of_nat i + 1 <= len texts).
    { apply lookup_lt_Some in Hx. unfold len. lia. }
    assert (Hxin : In x texts) by (apply list_elem_of_In; eapply list_elem_of_lookup_2; eauto).
    destruct (proj2 (encodable_app (strip x) _)
                (conj (encodable_strip x (proj1 (List.Forall_forall _ _) Henc x Hxin))
                      (encodable_positional_suffix (Z.of_nat i + 1) (len texts))))
      as [cb Hcb].
    exists cb. split; [exact Hcb|].
    rewrite (encode_byte_length _ cb Hcb), byte_length_app.
    pose proof (byte_length_strip x).
    pose proof (proj1 (List.Forall_forall _ _) Hbl x Hxin) as Hxle. simpl in Hxle.
    pose proof (byte_length_positional_suffix_le (Z.of_nat i + 1) (len texts) M
                  ltac:(lia) Hcount).
    rewrite <- (encode_byte_length _ suf Hsuf) in H0. lia.
Qed.

Lemma chunks_within_budget_witness :
  exists cs,
    truncate_utf8 2 (lit "alert for north region flooding now") 20 = Ok cs /\
    len cs <= 2 /\
    forall c, In c cs -> exists cb, encode c = Ok cb /\ len cb <= 20.
Proof.
  apply (chunks_within_budget 2 (lit "alert for north region flooding now") 20
           (lit "alert for north region flooding now") (lit " 2/2")).
  - lia.
  - reflexivity.
  - reflexivity.
  - intros w wb Hw Hwb. vm_compute in Hw.
    repeat (destruct Hw as [<-|Hw];
            [vm_compute in Hwb; injection Hwb as <-; vm_compute; discriminate|]).
    destruct Hw.
Defined.

(** * Segmentation: further properties *)

Lemma truncate_ok_encodable (M : Z) (s : str) (B : Z) (cs : list str) :
  truncate_utf8 M s B = Ok cs -> exists sb, encode s = Ok sb.
Proof.
  unfold truncate_utf8. destruct (encode s) as [sb|]; [eauto|discriminate].
Qed.

(** X2.  With at least one message allowed, [truncate_utf8] never returns
    more than [MAX_MESSAGES] chunks. *)
Theorem chunk_count_bounded (M : Z) (s : str) (B : Z) (cs : list str) :
  1 <= M -> truncate_utf8 M s B = Ok cs -> len cs <= M.
Proof.
  intros HM Hcs. destruct (truncate_ok_encodable M s B cs Hcs) as [sb Hsb].
  now apply (truncate_utf8_count M s B sb cs).
Qed.

Lemma chunk_count_bounded_witness :
  len [lit "alert for north 1/2"; lit "region [...] 2/2"] <= 2.
Proof.
  apply (chunk_count_bounded 2 (lit "alert for north region flooding now") 20).
  - lia.
  - vm_compute. reflexivity.
Defined.

(** X3.  When a text longer than the budget is segmented without
    truncation, the words of the chunks, in order, are exactly the words
    of the text that are not longer than [max_bytes]; if no word is that
    long, joining them with single spaces gives back the text. *)
Theorem untruncated_keeps_all_words (M : Z) (s : str) (B : Z) (sb : list Z) :
  encode s = Ok sb -> B < len sb -> truncates M s B = false ->
  exists groups,
    truncate_utf8 M s B = Ok (number_chunks (map str_join groups)) /\
    concat groups = kept_words B (split_space s) /\
    ((forall w, In w (split_space s) -> oversized B w = false) ->
     str_join (concat groups) = s).
Proof.
  intros Hsb HB Ht.
  destruct (truncate_utf8_segmented M s B sb Hsb HB)
    as (groups & dropped & Heq & Hcat & Hrest).
  rewrite Ht in Heq, Hrest. destruct Hrest as [-> _]. rewrite app_nil_r in Hcat.
  exists groups. split; [exact Heq|]. split; [exact Hcat|].
  intros Hall. rewrite Hcat. unfold kept_words.
  rewrite forallb_filter_id; [apply str_join_split_space|].
  apply forallb_forall. intros w Hw. now rewrite (Hall w Hw).
Qed.

Lemma untruncated_keeps_all_words_witness :
  exists groups,
    truncate_utf8 3 (lit "alert for north region flooding now") 20
      = Ok (number_chunks (map str_join groups)) /\
    concat groups
      = kept_words 20 (split_space (lit "alert for north region flooding now")) /\
    ((forall w, In w (split_space (lit "alert for north region flooding now")) ->
                oversized 20 w = false) ->
     str_join (concat groups) = lit "alert for north region flooding now").
Proof.
  apply (untruncated_keeps_all_words 3 (lit "alert for north region flooding now") 20
           (lit "alert for north region flooding now"));
    vm_compute; reflexivity.
Defined.

(** X4.  With [MAX_MESSAGES] zero or negative the limit is never applied:
    [truncate_utf8] never leaves its loop through [break]. *)
Theorem no_limit_without_positive_max (M : Z) (s : str) (B : Z) :
  M <= 0 -> truncates M s B = false.
Proof.
  intros HM. destruct (truncates M s B) eqn:Ht; [|reflexivity].
  destruct (truncates_inv M s B Ht) as (sb & Hsb & HB).
  destruct (truncate_utf8_segmented M s B sb Hsb HB) as (groups & dropped & _ & _ & Hrest).
  rewrite Ht in Hrest. destruct Hrest as (_ & Hgs & Hlen).
  destruct groups; [contradiction|]. unfold len in Hlen. simpl in Hlen. lia.
Qed.

Lemma no_limit_without_positive_max_witness :
  truncates 0 (lit "alert for north region flooding now") 20 = false.
Proof.
  apply (no_limit_without_positive_max 0). lia.
Defined.

(** X5.  A text all of whose words are longer than [max_bytes] comes back
    as no chunk at all. *)
Theorem only_oversized_words_give_nothing (M : Z) (s : str) (B : Z) (sb : list Z) :
  encode s = Ok sb ->
  (forall w, In w (split_space s) -> oversized B w = true) ->
  truncate_utf8 M s B = Ok [].
Proof.
  intros Hsb Hall.
  pose proof (split_space_encodable s (ex_intro _ sb Hsb)) as Hwords.
  assert (HB : B < len sb).
  { destruct (split_space s) as [|w ws] eqn:Hsp;
      [now apply split_space_nonempty in Hsp|].
    assert (Hin : In w (split_space s)) by (rewrite Hsp; now left).
    destruct (split_space_word_len s sb Hsb w Hin) as (wb & Hwb & Hle).
    specialize (Hall w ltac:(now left)). unfold oversized in Hall.
    rewrite Hwb, Z.gtb_ltb in Hall. apply Z.ltb_lt in Hall. lia. }
  assert (Hkept : kept_words B (split_space s) = []).
  { unfold kept_words. induction (split_space s) as [|w ws IH]; [reflexivity|].
    simpl. rewrite (Hall w (or_introl eq_refl)). simpl.
    apply IH; [intros w' Hw'; apply Hall; now right|now inversion Hwords]. }
  destruct (encodable_positional_suffix M M) as [suf Hsuf].
  unfold truncate_utf8. rewrite Hsb. unfold rbind at 1.
  destruct (Z.leb_spec (len sb) B) as [|_]; [lia|].
  rewrite Hsuf. unfold rbind at 1.
  rewrite (truncate_utf8_loop_kept M B (len suf) _ Hwords), Hkept. reflexivity.
Qed.

Lemma only_oversized_words_give_nothing_witness :
  truncate_utf8 2 (replicate 201 120) 200 = Ok [].
Proof.
  apply (only_oversized_words_give_nothing 2 (replicate 201 120) 200 (replicate 201 120)).
  - reflexivity.
  - intros w Hw. vm_compute in Hw. destruct Hw as [<-|[]]. reflexivity.
Defined.

(** The loop only adds chunks after the ones it has finished. *)
Lemma truncate_utf8_loop_extends (M B sl : Z) (words : list str) :
  forall st e, truncate_utf8_loop M B sl words st = Ok e ->
    exists more, chunks (exit_state e) = chunks st ++ more.
Proof.
  induction words as [|word rest IH]; intros st e He; simpl in He.
  - injection He as <-. exists []. simpl. now rewrite app_nil_r.
  - destruct (encode word) as [wb|]; simpl in He; [|discriminate].
    destruct (len wb >? B); [now apply IH|].
    destruct (_ <=? _).
    + apply IH in He as [more Hmore]. exists more. exact Hmore.
    + destruct (_ =? _).
      * injection He as <-. simpl. rewrite add_to_last_snoc. eauto.
      * apply IH in He as [more Hmore]. simpl in Hmore.
        rewrite <- app_assoc in Hmore. eauto.
Qed.

Lemma loop_first_word_too_long (M B sl : Z) (word : str) (rest : list str)
    (wb : list Z) :
  M <> 1 -> encode word = Ok wb -> len wb <= B -> B - sl < 1 + len wb ->
  truncate_utf8_loop M B sl (word :: rest) loop_start
  = truncate_utf8_loop M B sl rest
      {| chunks := [[]]; current_words := [word]; current_size := len wb;
         extra_suffix_length := 0 |}.
Proof.
  intros HM Hwb Hfits Hlong.
  cbn -[Z.eqb Z.leb Z.gtb Z.sub Z.add len]. rewrite Hwb.
  cbn -[Z.eqb Z.leb Z.gtb Z.sub Z.add len].
  destruct (Z.gtb_spec (len wb) B) as [|_]; [lia|].
  destruct (Z.eqb_spec (len (@nil str)) (M - 1)) as [H0|_];
    [unfold len in H0; simpl in H0; lia|].
  destruct (Z.leb_spec (0 + (1 + len wb)) (B - sl - 0)) as [|_]; [lia|].
  destruct (Z.eqb_spec (len [@nil Z]) M) as [H1|_];
    [unfold len in H1; simpl in H1; lia|].
  reflexivity.
Qed.

(** X6.  When the text is longer than the budget, more or fewer than one
    message is allowed, and the first word, though not longer than
    [max_bytes], does not fit with its separating byte in what the suffix
    leaves of the budget, the first chunk returned is nothing but its
    positional suffix " 1/N". *)
Theorem long_first_word_leaves_empty_chunk (M : Z) (s : str) (B : Z)
    (w : str) (rest : list str) (sb wb suf : list Z) :
  M <> 1 ->
  encode s = Ok sb -> B < len sb ->
  split_space s = w :: rest ->
  encode w = Ok wb -> len wb <= B ->
  encode (positional_suffix M M) = Ok suf ->
  B - len suf < 1 + len wb ->
  exists others,
    truncate_utf8 M s B = Ok (positional_suffix 1 (1 + len others) :: others).
Proof.
  intros HM Hsb HB Hsplit Hwb Hfits Hsuf Hlong.
  pose proof (split_space_encodable s (ex_intro _ sb Hsb)) as Hwords.
  destruct (truncate_utf8_loop_spec M B (len suf) _ Hwords loop_start [] eq_refl)
    as (e & He & _).
  { intros H1. unfold len. simpl. lia. }
  unfold truncate_utf8. rewrite Hsb. unfold rbind at 1.
  destruct (Z.leb_spec (len sb) B) as [|_]; [lia|].
  rewrite Hsuf. unfold rbind at 1. rewrite He. unfold rbind.
  rewrite Hsplit in He.
  rewrite (loop_first_word_too_long M B (len suf) w rest wb HM Hwb Hfits Hlong) in He.
  apply truncate_utf8_loop_extends in He as [more Hmore]. simpl in Hmore.
  unfold finalize. rewrite Hmore.
  destruct (current_words (exit_state e)) as [|w' cw].
  - exists (imap (fun i c => strip c ++ positional_suffix (Z.of_nat (S i) + 1)
                               (len ([] :: more))) more).
    unfold number_chunks. simpl. unfold len. simpl. rewrite length_imap.
    do 3 f_equal. lia.
  - exists (imap (fun i c => strip c ++ positional_suffix (Z.of_nat (S i) + 1)
                               (len (([] :: more) ++ [str_join (w' :: cw)])))
              (more ++ [str_join (w' :: cw)])).
    unfold number_chunks. simpl app. simpl imap. unfold len. simpl length.
    rewrite length_imap. do 3 f_equal. simpl. lia.
Qed.

Lemma long_first_word_leaves_empty_chunk_witness :
  exists others,
    truncate_utf8 2 (replicate 199 97 ++ lit " x") 200
    = Ok (positional_suffix 1 (1 + len others) :: others).
Proof.
  apply (long_first_word_leaves_empty_chunk 2 (replicate 199 97 ++ lit " x") 200
           (replicate 199 97) [lit "x"] (replicate 199 97 ++ lit " x")
           (replicate 199 97) (lit " 2/2"));
    first [reflexivity | lia | (vm_compute; discriminate)].
Defined.

(** * fetch_alerts: what is kept *)

Lemma existsb_geocode (G : Z) (l : list Z) :
  existsb (fun a => a =? G) l = true <-> In G l.
Proof.
  rewrite existsb_exists. split.
  - intros (x & Hx & Heq). apply Z.eqb_eq in Heq. now subst.
  - intros H. exists G. split; [exact H|apply Z.eqb_refl].
Qed.

Lemma filter_warning_areas_records (G : Z) (aid : str) (was : list warning_area) :
  forall acc r,
    In r (snd (filter_warning_areas G aid was acc)) <->
    In r (snd acc) \/
    exists wa, In wa was /\ warningLevel_code wa <> lit "MESSAGE" /\
               In G (affectedAreas wa) /\ r = wa_copy (aid ++ wa_id wa) wa.
Proof.
  induction was as [|wa was IH]; intros acc r; simpl.
  - split; [now left|]. intros [H|(wa & [] & _)]. exact H.
  - destruct (bool_decide_reflect (warningLevel_code wa = lit "MESSAGE")) as [Hm|Hm].
    + rewrite IH. split.
      * intros [H|(wa' & Hin & Hrest)]; [now left|]. right. exists wa'. tauto.
      * intros [H|(wa' & [<-|Hin] & Hc & Hrest)]; [now left|contradiction|].
        right. exists wa'. tauto.
    + destruct (existsb (fun a => a =? G) (affectedAreas wa)) eqn:Hg.
      * rewrite IH. simpl. rewrite in_app_iff. simpl. split.
        -- intros [[H|[<-|[]]]|(wa' & Hin & Hrest)].
           ++ now left.
           ++ right. exists wa. split; [now left|]. split; [exact Hm|].
              split; [now apply existsb_geocode|reflexivity].
           ++ right. exists wa'. tauto.
        -- intros [H|(wa' & [<-|Hin] & Hc & Hgeo & ->)].
           ++ left. now left.
           ++ left. right. now left.
           ++ right. exists wa'. tauto.
      * rewrite IH. split.
        -- intros [H|(wa' & Hin & Hrest)]; [now left|]. right. exists wa'. tauto.
        -- intros [H|(wa' & [<-|Hin] & Hc & Hgeo & Hr)]; [now left| |].
           ++ apply existsb_geocode in Hgeo. congruence.
           ++ right. exists wa'. tauto.
Qed.

Lemma filter_alerts_records (G : Z) (data : list alert) :
  forall acc r,
    In r (snd (filter_alerts G data acc)) <-> In r (snd acc) \/ selected G data r.
Proof.
  induction data as [|a data IH]; intros acc r; simpl.
  - split; [now left|]. intros [H|(a & wa & [] & _)]. exact H.
  - rewrite IH, filter_warning_areas_records. unfold selected. split.
    + intros [[H|(wa & Hwa & Hrest)]|(a' & wa & Ha & Hrest)].
      * now left.
      * right. exists a, wa. split; [now left|]. tauto.
      * right. exists a', wa. split; [now right|]. tauto.
    + intros [H|(a' & wa & [<-|Ha] & Hrest)].
      * left. now left.
      * left. right. exists wa. tauto.
      * right. exists a', wa. tauto.
Qed.

(** X7.  On a parsed feed [fetch_alerts] returns exactly the warning areas
    whose level is not "MESSAGE" and that affect [GEOCODE], each under the
    id made of the alert id followed by the area id, and the set of keys
    it returns is exactly the set of ids of those records. *)
Theorem fetch_alerts_selects (G : Z) (data : list alert) :
  exists ids filtered,
    fetch_alerts G (Body data) = Ok (Pair ids filtered) /\
    (forall r, In r filtered <->
       exists a wa, In a data /\ In wa (warningAreas a) /\
         warningLevel_code wa <> lit "MESSAGE" /\
         In G (affectedAreas wa) /\
         r = wa_copy (alert_id a ++ wa_id wa) wa) /\
    (forall k : str, k ∈ ids <-> exists r, In r filtered /\ wa_id r = k).
Proof.
  exists (fst (filter_alerts G data (∅, []))), (snd (filter_alerts G data (∅, []))).
  split; [|split].
  - unfold fetch_alerts. now destruct (filter_alerts G data (∅, [])).
  - intros r. rewrite filter_alerts_records. simpl. unfold selected. tauto.
  - apply filter_alerts_keys. intros k. simpl. split.
    + intros Hk. now apply not_elem_of_empty in Hk.
    + intros (a & [] & _).
Qed.

(** * The main loop: the queue through a cycle *)

Lemma slot_due_spec (N C : Z) (k : nat) :
  slot_due N C k = true <-> exists i, 0 <= i < N /\ Z.of_nat k = (i + 1) * C - 1.
Proof.
  unfold slot_due. rewrite existsb_exists. split.
  - intros (i & Hi & Heq). exists i. apply list_elem_of_In, elem_of_seqZ in Hi.
    apply Z.eqb_eq in Heq. split; [lia|exact Heq].
  - intros (i & Hi & Heq). exists i. split.
    + apply list_elem_of_In, elem_of_seqZ. lia.
    + now apply Z.eqb_eq.
Qed.

Lemma ring_schedule_nth (N C : Z) (msgs : list str) (q : ring) :
  0 < N -> 0 < C -> len q = N * C ->
  exists q', ring_schedule N C msgs q = Ok q' /\
    length q' = length q /\
    forall k : nat,
      nth k q' [] = nth k q [] ++ (if slot_due N C k then msgs else []).
Proof.
  intros HN HC Hlen.
  destruct (ring_schedule_spec N C msgs q HN HC Hlen) as (q' & Hq' & Hl & Hslots).
  exists q'. split; [exact Hq'|]. split; [exact Hl|].
  intros k. destruct (Hslots k) as [Hdue Hidle].
  destruct (slot_due N C k) eqn:Hk.
  - apply Hdue. now apply slot_due_spec.
  - rewrite app_nil_r. apply Hidle. intros i Hi Heq.
    assert (slot_due N C k = true) by (apply slot_due_spec; eauto). congruence.
Qed.

Lemma send_queued_full (cfg : config) (s : state) :
  ring_ok cfg s ->
  exists s', send_queued cfg s = (Ok tt, s') /\
    first s' = first s /\ known_alerts s' = known_alerts s /\
    length (message_queue s') = length (message_queue s) /\
    dispatched s' = dispatched s ++
      (if repeats cfg then sends cfg (hd [] (message_queue s)) else []) /\
    forall k : nat,
      nth k (message_queue s') []
      = if repeats cfg then nth (S k) (message_queue s) []
        else nth k (message_queue s) [].
Proof.
  intros Hok. pose proof (send_queued_ready cfg s Hok) as Hq.
  unfold send_queued. destruct (repeats cfg) eqn:Hrep.
  - destruct Hq as [Hq|Hq]; [|discriminate].
    destruct s as [f q kn d]. simpl in *.
    destruct q as [|h t]; [unfold len in Hq; simpl in Hq; lia|].
    unfold bind, get, lift, set_message_queue. simpl.
    rewrite for_each_call_meshtastic. simpl.
    eexists. split; [reflexivity|]. simpl. repeat split.
    + unfold ring_append. rewrite length_app. simpl. lia.
    + intros k. unfold ring_append.
      destruct (Nat.lt_ge_cases k (length t)) as [Hlt|Hge].
      * now apply app_nth1.
      * rewrite (nth_overflow t) by lia.
        destruct (Nat.eq_dec k (length t)) as [->|Hne].
        -- now rewrite nth_middle.
        -- apply nth_overflow. rewrite length_app. simpl. lia.
  - exists s. unfold ret. repeat split. now rewrite app_nil_r.
Qed.

Section QueueFacts.

Variable format_time : str -> result str.

Lemma announce_full (cfg : config) (data : list warning_area) (id : str)
    (s : state) (a : warning_area) (message : str) (cs : list str) :
  find_alert data id = Ok a ->
  format_message format_time a = Ok message ->
  truncate_utf8 (MAX_MESSAGES cfg) message 200 = Ok cs ->
  ring_ok cfg s ->
  exists s', announce format_time cfg data id s = (Ok tt, s') /\
    first s' = first s /\ known_alerts s' = known_alerts s /\
    length (message_queue s') = length (message_queue s) /\
    dispatched s' = dispatched s ++ sends cfg cs /\
    forall k : nat,
      nth k (message_queue s') []
      = nth k (message_queue s) [] ++
        (if repeats cfg && slot_due (REPEAT_NUM_MSG cfg) (REPEAT_NUM_CYCL cfg) k
         then cs else []).
Proof.
  intros Hfind Hfmt Htr Hok. unfold announce, bind, lift.
  rewrite Hfind, Hfmt, Htr, for_each_call_meshtastic.
  destruct (repeats cfg) eqn:Hrep.
  - destruct (repeats_true cfg Hrep) as [HN HC].
    destruct (ring_schedule_nth (REPEAT_NUM_MSG cfg) (REPEAT_NUM_CYCL cfg) cs
                (message_queue s) HN HC (Hok Hrep)) as (q' & Hq' & Hlen & Hnth).
    unfold get, set_message_queue. simpl. rewrite Hq'.
    eexists. split; [reflexivity|]. simpl. repeat split; assumption.
  - unfold ret. eexists. split; [reflexivity|]. simpl. repeat split.
    intros k. now rewrite app_nil_r.
Qed.

Lemma for_each_announce_full (cfg : config) (data : list warning_area)
    (ids : list str) :
  (forall id, In id ids ->
     exists a message, find_alert data id = Ok a /\
       format_message format_time a = Ok message /\ encodable message) ->
  forall s, ring_ok cfg s ->
  exists s', for_each ids (announce format_time cfg data) s = (Ok tt, s') /\
    first s' = first s /\ known_alerts s' = known_alerts s /\
    length (message_queue s') = length (message_queue s) /\
    dispatched s' = dispatched s ++
      concat (map (fun id => sends cfg (messages_for format_time cfg data id)) ids) /\
    forall k : nat,
      nth k (message_queue s') []
      = nth k (message_queue s) [] ++
        (if repeats cfg && slot_due (REPEAT_NUM_MSG cfg) (REPEAT_NUM_CYCL cfg) k
         then concat (map (messages_for format_time cfg data) ids) else []).
Proof.
  induction ids as [|id ids IH]; intros Hfound s Hok.
  - exists s. simpl. unfold ret. repeat split.
    + now rewrite app_nil_r.
    + intros k. destruct (_ && _); now rewrite app_nil_r.
  - destruct (Hfound id (or_introl eq_refl)) as (a & message & Hfind & Hfmt & Henc).
    destruct (truncate_utf8_returns (MAX_MESSAGES cfg) message 200 Henc) as [cs Hcs].
    destruct (announce_full cfg data id s a message cs Hfind Hfmt Hcs Hok)
      as (s1 & Hs1 & Hf1 & Hk1 & Hl1 & Hd1 & Hn1).
    assert (Hok1 : ring_ok cfg s1).
    { intros Hrep. unfold len. rewrite Hl1. exact (Hok Hrep). }
    destruct (IH (fun id' H => Hfound id' (or_intror H)) s1 Hok1)
      as (s2 & Hs2 & Hf2 & Hk2 & Hl2 & Hd2 & Hn2).
    exists s2. simpl. unfold bind at 1. rewrite Hs1. split; [exact Hs2|].
    split; [congruence|]. split; [congruence|]. split; [congruence|].
    rewrite (messages_for_eq format_time cfg data id a message cs Hfind Hfmt Hcs).
    split.
    + rewrite Hd2, Hd1. now rewrite <- app_assoc.
    + intros k. rewrite Hn2, Hn1, <- app_assoc. f_equal.
      now destruct (_ && _).
Qed.

Lemma cycle_full (cfg : config) (data : list alert) (s : state) :
  let ids := fst (filter_alerts (GEOCODE cfg) data (∅, [])) in
  let filtered := snd (filter_alerts (GEOCODE cfg) data (∅, [])) in
  let new := elements (ids ∖ known_alerts s) in
  ring_ok cfg s ->
  (first s = false ->
   forall id, In id new ->
     exists a message, find_alert filtered id = Ok a /\
       format_message format_time a = Ok message /\ encodable message) ->
  exists s', cycle format_time cfg (Body data) s = (Ok tt, s') /\
    first s' = false /\ known_alerts s' = ids /\
    length (message_queue s') = length (message_queue s) /\
    dispatched s' = dispatched s ++
      (if repeats cfg then sends cfg (hd [] (message_queue s)) else []) ++
      (if first s then []
       else concat (map (fun id => sends cfg (messages_for format_time cfg filtered id))
                        new)) /\
    forall k : nat,
      nth k (message_queue s') []
      = (if repeats cfg then nth (S k) (message_queue s) []
         else nth k (message_queue s) []) ++
        (if negb (first s) && repeats cfg
            && slot_due (REPEAT_NUM_MSG cfg) (REPEAT_NUM_CYCL cfg) k
         then concat (map (messages_for format_time cfg filtered) new) else []).
Proof.
  intros ids filtered new Hok Hrender.
  destruct (send_queued_full cfg s Hok) as (s1 & Hs1 & Hf1 & Hk1 & Hl1 & Hd1 & Hn1).
  assert (Hok1 : ring_ok cfg s1).
  { intros Hrep. unfold len. rewrite Hl1. exact (Hok Hrep). }
  unfold cycle. unfold bind at 1. rewrite Hs1.
  unfold bind at 1. unfold lift at 1. unfold fetch_alerts.
  fold ids filtered.
  rewrite (surjective_pairing (filter_alerts (GEOCODE cfg) data (∅, []))).
  fold ids filtered.
  unfold bind at 1. unfold lift at 1. unfold unpack2.
  unfold bind at 1. unfold get at 1.
  cbv beta iota zeta. unfold fst at 1 2, snd at 1.
  rewrite Hf1, Hk1. fold new.
  destruct (first s) eqn:Hfirst.
  - unfold negb, ret, bind, set_known_alerts, get, set_first. simpl. rewrite Hf1.
    eexists. split; [reflexivity|]. simpl. repeat split.
    + exact Hl1.
    + now rewrite Hd1, !app_nil_r.
    + intros k. now rewrite Hn1, app_nil_r.
  - unfold negb. unfold bind at 1.
    destruct (for_each_announce_full cfg filtered new (Hrender eq_refl) s1 Hok1)
      as (s2 & Hs2 & Hf2 & Hk2 & Hl2 & Hd2 & Hn2).
    rewrite Hs2. unfold bind, set_known_alerts, get, set_first, ret. simpl.
    rewrite Hf2, Hf1. eexists. split; [reflexivity|]. simpl. repeat split.
    + congruence.
    + now rewrite Hd2, Hd1, <- app_assoc.
    + intros k. now rewrite Hn2, Hn1.
Qed.

End QueueFacts.

Section RunFacts.

Variable format_time : str -> result str.

Lemma renderable_new (cfg : config) (data : list alert) (known : gset str) :
  renderable format_time (snd (filter_alerts (GEOCODE cfg) data (∅, []))) ->
  forall id, In id (elements (fst (filter_alerts (GEOCODE cfg) data (∅, [])) ∖ known)) ->
    exists a message,
      find_alert (snd (filter_alerts (GEOCODE cfg) data (∅, []))) id = Ok a /\
      format_message format_time a = Ok message /\ encodable message.
Proof.
  intros Hrender id Hid.
  apply list_elem_of_In, elem_of_elements, elem_of_difference in Hid as [Hid _].
  destruct (fetched_keys_found (GEOCODE cfg) data id Hid) as (a & Hfind & Ha).
  destruct (Hrender a Ha) as (message & Hfmt & Henc). eauto.
Qed.

Lemma ring_ok_length (cfg : config) (s s' : state) :
  ring_ok cfg s -> length (message_queue s') = length (message_queue s) ->
  ring_ok cfg s'.
Proof. intros Hok Hl Hrep. unfold len. rewrite Hl. exact (Hok Hrep). Qed.

Lemma quiet_run (cfg : config) (data : list alert) (j : nat) :
  forall s, ring_ok cfg s -> first s = false ->
    known_alerts s = fst (filter_alerts (GEOCODE cfg) data (∅, [])) ->
    exists sj,
      for_each (replicate j (Body data)) (cycle format_time cfg) s = (Ok tt, sj) /\
      ring_ok cfg sj /\ first sj = false /\
      known_alerts sj = fst (filter_alerts (GEOCODE cfg) data (∅, [])) /\
      forall k : nat,
        nth k (message_queue sj) []
        = if repeats cfg then nth (j + k) (message_queue s) []
          else nth k (message_queue s) [].
Proof.
  induction j as [|j IH]; intros s Hok Hfirst Hknown.
  - exists s. simpl. unfold ret. repeat split; try assumption.
    intros k. now destruct (repeats cfg).
  - assert (Hnew : elements (fst (filter_alerts (GEOCODE cfg) data (∅, []))
                             ∖ known_alerts s) = []).
    { rewrite Hknown, difference_diag_L. apply elements_empty. }
    destruct (cycle_full format_time cfg data s Hok)
      as (s1 & Hs1 & Hf1 & Hk1 & Hl1 & _ & Hn1).
    { intros _ id Hid. rewrite Hnew in Hid. destruct Hid. }
    rewrite Hnew in Hn1.
    assert (Hn1' : forall k : nat,
              nth k (message_queue s1) []
              = if repeats cfg then nth (S k) (message_queue s) []
                else nth k (message_queue s) []).
    { intros k. rewrite Hn1.
      match goal with |- _ ++ (if ?b then _ else _) = _ => destruct b end;
        simpl; apply app_nil_r. }
    destruct (IH s1 (ring_ok_length cfg s s1 Hok Hl1) Hf1 Hk1)
      as (sj & Hsj & Hokj & Hfj & Hkj & Hnj).
    exists sj. simpl replicate. simpl for_each. unfold bind at 1. rewrite Hs1.
    split; [exact Hsj|]. repeat split; try assumption.
    intros k. rewrite Hnj, !Hn1'.
    destruct (repeats cfg); reflexivity.
Qed.

End RunFacts.

(** * The main loop: further properties *)

Lemma hd_nth {A : Type} (d : A) (l : list A) : hd d l = nth 0 l d.
Proof. now destruct l. Qed.

(** X9.  A cycle whose fetched keys are all known already announces
    nothing: the only messages sent are the queued ones that fall due. *)
Theorem known_alerts_not_repeated (format_time : str -> result str) (cfg : config)
    (data : list alert) (s : state) :
  ring_ok cfg s ->
  fst (filter_alerts (GEOCODE cfg) data (∅, [])) ⊆ known_alerts s ->
  exists s', cycle format_time cfg (Body data) s = (Ok tt, s') /\
    dispatched s' = dispatched s ++
      (if repeats cfg then sends cfg (hd [] (message_queue s)) else []) /\
    known_alerts s' = fst (filter_alerts (GEOCODE cfg) data (∅, [])).
Proof.
  intros Hok Hsub.
  assert (Hnew : elements (fst (filter_alerts (GEOCODE cfg) data (∅, []))
                           ∖ known_alerts s) = []).
  { rewrite (subseteq_empty_difference_L _ _ Hsub). apply elements_empty. }
  destruct (cycle_full format_time cfg data s Hok)
    as (s' & Hs' & _ & Hk & _ & Hd & _).
  { intros _ id Hid. rewrite Hnew in Hid. destruct Hid. }
  exists s'. split; [exact Hs'|]. split; [|exact Hk].
  rewrite Hd, Hnew. simpl. destruct (first s); now rewrite app_nil_r.
Qed.

(** X10.  With repeats on, after a cycle that announces new alerts, and
    while the feed stays the same, the cycle that comes [(i+1) *
    REPEAT_NUM_CYCL] cycles later, for each [0 <= i < REPEAT_NUM_MSG],
    sends what its slot held followed by all the chunks announced, and
    every other later cycle sends only what its slot held. *)
Theorem rebroadcast_reaches_transport (format_time : str -> result str)
    (cfg : config) (data : list alert) (s : state) :
  let ids := fst (filter_alerts (GEOCODE cfg) data (∅, [])) in
  let filtered := snd (filter_alerts (GEOCODE cfg) data (∅, [])) in
  let announced :=
    concat (map (messages_for format_time cfg filtered)
                (elements (ids ∖ known_alerts s))) in
  repeats cfg = true -> first s = false -> ring_ok cfg s ->
  renderable format_time filtered ->
  exists s1, cycle format_time cfg (Body data) s = (Ok tt, s1) /\
    forall j : nat,
      exists sj s',
        for_each (replicate j (Body data)) (cycle format_time cfg) s1 = (Ok tt, sj) /\
        cycle format_time cfg (Body data) sj = (Ok tt, s') /\
        ((forall i, 0 <= i < REPEAT_NUM_MSG cfg ->
            Z.of_nat j + 1 = (i + 1) * REPEAT_NUM_CYCL cfg ->
            dispatched s' = dispatched sj ++
              sends cfg (nth (S j) (message_queue s) [] ++ announced)) /\
         ((forall i, 0 <= i < REPEAT_NUM_MSG cfg ->
             Z.of_nat j + 1 <> (i + 1) * REPEAT_NUM_CYCL cfg) ->
          dispatched s' = dispatched sj ++
            sends cfg (nth (S j) (message_queue s) []))).
Proof.
  intros ids filtered announced Hrep Hfirst Hok Hrender.
  destruct (cycle_full format_time cfg data s Hok)
    as (s1 & Hs1 & Hf1 & Hk1 & Hl1 & _ & Hn1).
  { intros _. now apply renderable_new. }
  exists s1. split; [exact Hs1|]. intros j.
  pose proof (ring_ok_length cfg s s1 Hok Hl1) as Hok1.
  destruct (quiet_run format_time cfg data j s1 Hok1 Hf1 Hk1)
    as (sj & Hsj & Hokj & Hfj & Hkj & Hnj).
  assert (Hnew : elements (fst (filter_alerts (GEOCODE cfg) data (∅, []))
                           ∖ known_alerts sj) = []).
  { rewrite Hkj, difference_diag_L. apply elements_empty. }
  destruct (cycle_full format_time cfg data sj Hokj)
    as (s' & Hs' & _ & _ & _ & Hd & _).
  { intros _ id Hid. rewrite Hnew in Hid. destruct Hid. }
  exists sj, s'. split; [exact Hsj|]. split; [exact Hs'|].
  rewrite Hnew, Hfj, Hrep in Hd. simpl in Hd. rewrite app_nil_r in Hd.
  rewrite hd_nth, Hnj, Hrep, Nat.add_0_r, Hn1, Hrep, Hfirst in Hd. simpl in Hd.
  fold ids filtered announced in Hd.
  split.
  - intros i Hi Hj. rewrite Hd.
    replace (slot_due (REPEAT_NUM_MSG cfg) (REPEAT_NUM_CYCL cfg) j) with true;
      [reflexivity|].
    symmetry. apply slot_due_spec. exists i. split; [exact Hi|lia].
  - intros Hno. rewrite Hd.
    replace (slot_due (REPEAT_NUM_MSG cfg) (REPEAT_NUM_CYCL cfg) j) with false;
      [now rewrite app_nil_r|].
    symmetry. apply not_true_is_false. intros Hdue.
    apply slot_due_spec in Hdue as (i & Hi & Hj). apply (Hno i Hi). lia.
Qed.

Lemma sample_renderable (data : list alert) :
  In data [[wind_warning]; []; [wind_warning]] ->
  renderable sample_format_time (snd (filter_alerts 1 data (∅, []))).
Proof.
  intros Hdata a Ha.
  repeat (destruct Hdata as [<-|Hdata];
          [vm_compute in Ha;
           repeat (destruct Ha as [<-|Ha];
                   [eexists; split; [vm_compute; reflexivity|];
                    eexists; vm_compute; reflexivity|]);
           destruct Ha|]).
  destruct Hdata.
Defined.

Lemma known_alerts_not_repeated_witness :
  exists s',
    cycle sample_format_time (sample_config true) (Body [wind_warning])
      (snd (cycle sample_format_time (sample_config true) (Body [wind_warning])
              (initial (sample_config true)))) = (Ok tt, s') /\
    dispatched s'
    = dispatched (snd (cycle sample_format_time (sample_config true)
                         (Body [wind_warning]) (initial (sample_config true)))).
Proof.
  destruct (known_alerts_not_repeated sample_format_time (sample_config true)
              [wind_warning]
              (snd (cycle sample_format_time (sample_config true)
                      (Body [wind_warning]) (initial (sample_config true)))))
    as (s' & Hs' & Hd & _).
  - intros _. vm_compute. reflexivity.
  - apply (bool_decide_unpack _). vm_compute. exact I.
  - exists s'. split; [exact Hs'|]. rewrite Hd. vm_compute. reflexivity.
Defined.

Lemma rebroadcast_reaches_transport_witness :
  exists s1,
    cycle sample_format_time (sample_config false) (Body [wind_warning])
      (snd (cycle sample_format_time (sample_config false) (Body [])
              (initial (sample_config false)))) = (Ok tt, s1).
Proof.
  destruct (rebroadcast_reaches_transport sample_format_time (sample_config false)
              [wind_warning]
              (snd (cycle sample_format_time (sample_config false) (Body [])
                      (initial (sample_config false)))))
    as (s1 & Hs1 & _).
  - reflexivity.
  - vm_compute. reflexivity.
  - intros _. vm_compute. reflexivity.
  - apply sample_renderable. now left.
  - exists s1. exact Hs1.
Defined.

(** * The rebroadcast queue through the loop *)

Lemma advances_spec (cfg : config) (k : nat) :
  repeats cfg = true ->
  forall s, ring_ok cfg s ->
    exists sk, advances cfg k s = (Ok tt, sk) /\ ring_ok cfg sk /\
      forall i : nat, nth i (message_queue sk) [] = nth (k + i) (message_queue s) [].
Proof.
  intros Hrep. induction k as [|k IH]; intros s Hok.
  - exists s. simpl. unfold ret. repeat split. exact Hok.
  - destruct (send_queued_full cfg s Hok) as (s1 & Hs1 & _ & _ & Hl1 & _ & Hn1).
    destruct (IH s1 (ring_ok_length cfg s s1 Hok Hl1)) as (sk & Hsk & Hokk & Hnk).
    exists sk. simpl. unfold bind at 1. rewrite Hs1. split; [exact Hsk|].
    split; [exact Hokk|]. intros i. now rewrite Hnk, Hn1, Hrep.
Qed.

(** C3.  With repeats on, the queue is created with [REPEAT_NUM_MSG *
    REPEAT_NUM_CYCL] slots.  Once [announce] has scheduled the chunks of an
    alert (lines 184-188), the [k]-th next pass through lines 151-160
    (counting from 0) hands to the transport what slot [k] held followed by
    those chunks, once, when [k] is one of the offsets [(i+1) *
    REPEAT_NUM_CYCL - 1] for [0 <= i < REPEAT_NUM_MSG], and only what the
    slot held at every other offset, so never earlier.  With 2 repeats
    spaced 3 cycles on the fresh queue of 6 slots, the chunks are sent at
    offsets 2 and 5 and nothing is sent at any other offset. *)
Theorem rebroadcast_schedule (format_time : str -> result str) (cfg : config)
    (data : list warning_area) (id : str) (s : state)
    (a : warning_area) (message : str) (cs : list str) :
  repeats cfg = true -> ring_ok cfg s ->
  find_alert data id = Ok a ->
  format_message format_time a = Ok message ->
  truncate_utf8 (MAX_MESSAGES cfg) message 200 = Ok cs ->
  len (message_queue (initial cfg)) = REPEAT_NUM_MSG cfg * REPEAT_NUM_CYCL cfg /\
  exists s1, announce format_time cfg data id s = (Ok tt, s1) /\
    (forall k : nat,
       exists sk s',
         advances cfg k s1 = (Ok tt, sk) /\
         send_queued cfg sk = (Ok tt, s') /\
         ((exists i, 0 <= i < REPEAT_NUM_MSG cfg /\
                     Z.of_nat k = (i + 1) * REPEAT_NUM_CYCL cfg - 1) ->
          dispatched s' = dispatched sk ++
            sends cfg (nth k (message_queue s) [] ++ cs)) /\
         ((forall i, 0 <= i < REPEAT_NUM_MSG cfg ->
                     Z.of_nat k <> (i + 1) * REPEAT_NUM_CYCL cfg - 1) ->
          dispatched s' = dispatched sk ++
            sends cfg (nth k (message_queue s) []))) /\
    (REPEAT_NUM_MSG cfg = 2 -> REPEAT_NUM_CYCL cfg = 3 ->
     message_queue s = new_ring 2 3 ->
     len (message_queue s) = 6 /\
     forall k : nat,
       exists sk s',
         advances cfg k s1 = (Ok tt, sk) /\
         send_queued cfg sk = (Ok tt, s') /\
         dispatched s' = dispatched sk ++
           (if ((k =? 2) || (k =? 5))%nat then sends cfg cs else [])).
Proof.
  intros Hrep Hok Hfind Hfmt Hcs. split; [exact (ring_ok_initial cfg Hrep)|].
  destruct (announce_full format_time cfg data id s a message cs Hfind Hfmt Hcs Hok)
    as (s1 & Hs1 & _ & _ & Hl1 & _ & Hn1).
  pose proof (ring_ok_length cfg s s1 Hok Hl1) as Hok1.
  assert (Hadv : forall k : nat,
            exists sk s',
              advances cfg k s1 = (Ok tt, sk) /\
              send_queued cfg sk = (Ok tt, s') /\
              dispatched s' = dispatched sk ++
                sends cfg (nth k (message_queue s) [] ++
                           (if slot_due (REPEAT_NUM_MSG cfg) (REPEAT_NUM_CYCL cfg) k
                            then cs else []))).
  { intros k.
    destruct (advances_spec cfg k Hrep s1 Hok1) as (sk & Hsk & Hokk & Hnk).
    destruct (send_queued_full cfg sk Hokk) as (s' & Hs' & _ & _ & _ & Hd & _).
    exists sk, s'. split; [exact Hsk|]. split; [exact Hs'|].
    rewrite Hd, Hrep, hd_nth, Hnk, Nat.add_0_r, Hn1, Hrep. reflexivity. }
  exists s1. split; [exact Hs1|]. split.
  - intros k. destruct (Hadv k) as (sk & s' & Hsk & Hs' & Hd).
    exists sk, s'. split; [exact Hsk|]. split; [exact Hs'|]. split.
    + intros Hdue. apply slot_due_spec in Hdue. now rewrite Hd, Hdue.
    + intros Hno. rewrite Hd.
      replace (slot_due (REPEAT_NUM_MSG cfg) (REPEAT_NUM_CYCL cfg) k) with false;
        [now rewrite app_nil_r|].
      symmetry. apply not_true_is_false. intros Hdue.
      apply slot_due_spec in Hdue as (i & Hi & Hk). now apply (Hno i Hi).
  - intros HN HC Hq. split; [now rewrite Hq|].
    intros k. destruct (Hadv k) as (sk & s' & Hsk & Hs' & Hd).
    exists sk, s'. split; [exact Hsk|]. split; [exact Hs'|].
    rewrite Hd, HN, HC, Hq, nth_new_ring. simpl app.
    do 6 (destruct k as [|k]; [reflexivity|]).
    replace (slot_due 2 3 (S (S (S (S (S (S k))))))) with false; [reflexivity|].
    symmetry. apply not_true_is_false. intros Hdue.
    apply slot_due_spec in Hdue as (i & Hi & Hk). lia.
Qed.

Lemma rebroadcast_schedule_witness :
  exists s1,
    announce sample_format_time (sample_config false)
      (snd (filter_alerts 1 [wind_warning] (∅, []))) (lit "127")
      (initial (sample_config false)) = (Ok tt, s1) /\
    exists sk s',
      advances (sample_config false) 2 s1 = (Ok tt, sk) /\
      send_queued (sample_config false) sk = (Ok tt, s') /\
      dispatched s' = dispatched sk ++
        sends (sample_config false)
          [lit "SMHI: Gul varning f" ++ [246] ++ lit "r Skane - Vind fr" ++ [229]
           ++ lit "n 2024-01-01 10:00 till 2024-01-02 10:00"].
Proof.
  edestruct (rebroadcast_schedule sample_format_time (sample_config false)
               (snd (filter_alerts 1 [wind_warning] (∅, []))) (lit "127")
               (initial (sample_config false)))
    as (_ & s1 & Hs1 & _ & Hscenario).
  - reflexivity.
  - intros _. reflexivity.
  - vm_compute. reflexivity.
  - vm_compute. reflexivity.
  - vm_compute. reflexivity.
  - exists s1. split; [exact Hs1|].
    destruct (Hscenario eq_refl eq_refl eq_refl) as (_ & Hk).
    destruct (Hk 2%nat) as (sk & s' & Hsk & Hs' & Hd).
    exists sk, s'. split; [exact Hsk|]. split; [exact Hs'|]. exact Hd.
Defined.

(** * The known set through the loop *)

Lemma cycle_known_alerts (format_time : str -> result str)
    (cfg : config) (r : reply) (s s' : state)
    (ids : gset str) (data : list warning_area) :
  cycle format_time cfg r s = (Ok tt, s') ->
  fetch_alerts (GEOCODE cfg) r = Ok (Pair ids data) ->
  known_alerts s' = ids.
Proof.
  intros Hcycle Hfetch.
  unfold cycle in Hcycle. unfold bind at 1 in Hcycle.
  destruct (send_queued cfg s) as [[u|e] s1]; [|discriminate].
  unfold bind at 1 in Hcycle. unfold lift at 1 in Hcycle. rewrite Hfetch in Hcycle.
  unfold bind at 1 in Hcycle. unfold lift at 1, unpack2 in Hcycle.
  unfold bind at 1 in Hcycle. unfold get at 1 in Hcycle.
  cbv beta iota zeta in Hcycle. unfold fst at 1 2, snd at 1 in Hcycle.
  unfold bind at 1 in Hcycle.
  destruct ((if negb (first s1)
             then for_each (elements (ids ∖ known_alerts s1))
                    (announce format_time cfg data)
             else ret tt) s1) as [[u'|e] s2]; [|discriminate].
  unfold bind, set_known_alerts, get, set_first, ret in Hcycle.
  simpl in Hcycle. destruct (first s2); injection Hcycle as <-; reflexivity.
Qed.

(** C9.  After every cycle that completes, the known set is exactly the set
    of keys fetched in that cycle, whatever it held before.  So when a key
    that was known is missing from one fetch and present in the next, the
    first of the two cycles forgets it (the fetched set replaces the known
    one, it is not merged into it) and the second announces it again. *)
Theorem known_alerts_replaced (format_time : str -> result str) (cfg : config) :
  (forall (r : reply) (s s' : state) (ids : gset str) (data : list warning_area),
     cycle format_time cfg r s = (Ok tt, s') ->
     fetch_alerts (GEOCODE cfg) r = Ok (Pair ids data) ->
     known_alerts s' = ids) /\
  (forall (data1 data2 : list alert) (s : state) (k : str),
     let ids1 := fst (filter_alerts (GEOCODE cfg) data1 (∅, [])) in
     let ids2 := fst (filter_alerts (GEOCODE cfg) data2 (∅, [])) in
     let filtered1 := snd (filter_alerts (GEOCODE cfg) data1 (∅, [])) in
     let filtered2 := snd (filter_alerts (GEOCODE cfg) data2 (∅, [])) in
     ring_ok cfg s ->
     renderable format_time filtered1 -> renderable format_time filtered2 ->
     k ∈ known_alerts s -> k ∉ ids1 -> k ∈ ids2 ->
     exists s1 s2,
       cycle format_time cfg (Body data1) s = (Ok tt, s1) /\
       cycle format_time cfg (Body data2) s1 = (Ok tt, s2) /\
       known_alerts s1 = ids1 /\ (k ∉ known_alerts s1) /\
       known_alerts s2 = ids2 /\
       exists a message cs before after,
         find_alert filtered2 k = Ok a /\
         format_message format_time a = Ok message /\
         truncate_utf8 (MAX_MESSAGES cfg) message 200 = Ok cs /\
         dispatched s2 = dispatched s1 ++ before ++ sends cfg cs ++ after).
Proof.
  split; [intros r s s' ids data; apply cycle_known_alerts|].
  intros data1 data2 s k ids1 ids2 filtered1 filtered2 Hok Hr1 Hr2 Hknown Hout Hin.
  subst ids1 ids2 filtered1 filtered2.
  destruct (cycle_full format_time cfg data1 s Hok)
    as (s1 & Hs1 & Hf1 & Hk1 & Hl1 & _).
  { intros _. now apply renderable_new. }
  destruct (cycle_full format_time cfg data2 s1 (ring_ok_length cfg s s1 Hok Hl1))
    as (s2 & Hs2 & _ & Hk2 & _ & Hd2 & _).
  { intros _. now apply renderable_new. }
  exists s1, s2. split; [exact Hs1|]. split; [exact Hs2|]. split; [exact Hk1|].
  split; [now rewrite Hk1|]. split; [exact Hk2|].
  destruct (fetched_keys_found (GEOCODE cfg) data2 k Hin) as (a & Hfind & Ha).
  destruct (Hr2 a Ha) as (message & Hfmt & Henc).
  destruct (truncate_utf8_returns (MAX_MESSAGES cfg) message 200 Henc) as [cs Hcs].
  assert (Hnew : In k (elements (fst (filter_alerts (GEOCODE cfg) data2 (∅, []))
                                 ∖ known_alerts s1))).
  { apply list_elem_of_In, elem_of_elements, elem_of_difference.
    split; [exact Hin|now rewrite Hk1]. }
  apply in_split in Hnew as (l1 & l2 & Hsplit).
  rewrite Hf1, Hsplit, map_app, concat_app in Hd2. simpl in Hd2.
  rewrite (messages_for_eq format_time cfg _ k a message cs Hfind Hfmt Hcs) in Hd2.
  exists a, message, cs.
  exists ((if repeats cfg then sends cfg (hd [] (message_queue s1)) else [])
          ++ concat (map (fun id' => sends cfg (messages_for format_time cfg
                        (snd (filter_alerts (GEOCODE cfg) data2 (∅, []))) id')) l1)).
  exists (concat (map (fun id' => sends cfg (messages_for format_time cfg
                        (snd (filter_alerts (GEOCODE cfg) data2 (∅, []))) id')) l2)).
  split; [exact Hfind|]. split; [exact Hfmt|]. split; [exact Hcs|].
  rewrite Hd2. now rewrite <- !app_assoc.
Qed.

Lemma known_alerts_replaced_witness :
  known_alerts wind_known = {[lit "127"]} /\
  known_alerts
    (snd (cycle sample_format_time (sample_config true) (Body []) wind_known)) = ∅ /\
  exists s1 s2,
    cycle sample_format_time (sample_config true) (Body []) wind_known = (Ok tt, s1) /\
    cycle sample_format_time (sample_config true) (Body [wind_warning]) s1 = (Ok tt, s2) /\
    known_alerts s1 = ∅ /\
    known_alerts s2 = {[lit "127"]} /\
    exists before after,
      dispatched s2 = dispatched s1 ++ before ++
        sends (sample_config true)
          [lit "SMHI: Gul varning f" ++ [246] ++ lit "r Skane - Vind fr" ++ [229]
           ++ lit "n 2024-01-01 10:00 till 2024-01-02 10:00"] ++ after.
Proof.
  split; [vm_compute; reflexivity|]. split.
  - apply (proj1 (known_alerts_replaced sample_format_time (sample_config true))
             (Body []) wind_known _ (∅) []);
      vm_compute; reflexivity.
  - destruct (proj2 (known_alerts_replaced sample_format_time (sample_config true))
                [] [wind_warning] wind_known (lit "127"))
      as (s1 & s2 & Hs1 & Hs2 & Hk1 & _ & Hk2 & a & message & cs & before & after
          & Hfind & Hfmt & Hcs & Hd).
    + intros _. vm_compute. reflexivity.
    + intros a [].
    + apply sample_renderable. now left.
    + apply (bool_decide_unpack _). vm_compute. exact I.
    + apply (bool_decide_unpack _). vm_compute. exact I.
    + apply (bool_decide_unpack _). vm_compute. exact I.
    + exists s1, s2. split; [exact Hs1|]. split; [exact Hs2|].
      split; [exact Hk1|]. split; [rewrite Hk2; vm_compute; reflexivity|].
      exists before, after. rewrite Hd.
      vm_compute in Hfind. injection Hfind as <-.
      vm_compute in Hfmt. injection Hfmt as <-.
      vm_compute in Hcs. injection Hcs as <-.
      reflexivity.
Defined.

(** * The empty first chunk *)

Lemma loop_skips_oversized (M B sl : Z) (pre ws : list str) (st : loop_state) :
  Forall (fun p => oversized B p = true) pre ->
  truncate_utf8_loop M B sl (pre ++ ws) st = truncate_utf8_loop M B sl ws st.
Proof.
  induction 1 as [|p pre Hp Hpre IH]; [reflexivity|].
  simpl. unfold oversized in Hp.
  destruct (encode p) as [pb|]; [|discriminate]. simpl. now rewrite Hp.
Qed.

(** C10.  Whenever the text exceeds the budget, the number of messages
    allowed is not 1, and the first word that the loop does not skip is at
    most [max_bytes] long but does not fit, with its separating byte, in
    what the suffix leaves of the budget, the loop finalizes the chunk in
    progress while its word list is still empty and opens the next chunk
    with that word; the first chunk of the result is then the empty text
    followed by its positional suffix " 1/N".  The witness is such a
    text. *)
Theorem empty_chunk_possible (M : Z) (s : str) (B : Z)
    (pre : list str) (w : str) (rest : list str) (sb wb suf : list Z) :
  M <> 1 ->
  encode s = Ok sb -> B < len sb ->
  split_space s = pre ++ w :: rest ->
  Forall (fun p => oversized B p = true) pre ->
  encode w = Ok wb -> len wb <= B ->
  encode (positional_suffix M M) = Ok suf ->
  B - len suf < 1 + len wb ->
  truncate_utf8_loop M B (len suf) (split_space s) loop_start
  = truncate_utf8_loop M B (len suf) rest
      {| chunks := [str_join (current_words loop_start)];
         current_words := [w];
         current_size := len wb;
         extra_suffix_length := 0 |} /\
  exists others,
    truncate_utf8 M s B
    = Ok ((strip (str_join []) ++ positional_suffix 1 (1 + len others)) :: others).
Proof.
  intros HM Hsb HB Hsplit Hpre Hwb Hfits Hsuf Hlong.
  assert (Hstep :
    truncate_utf8_loop M B (len suf) (split_space s) loop_start
    = truncate_utf8_loop M B (len suf) rest
        {| chunks := [str_join (current_words loop_start)];
           current_words := [w];
           current_size := len wb;
           extra_suffix_length := 0 |}).
  { rewrite Hsplit, loop_skips_oversized by exact Hpre.
    exact (loop_first_word_too_long M B (len suf) w rest wb HM Hwb Hfits Hlong). }
  split; [exact Hstep|].
  pose proof (split_space_encodable s (ex_intro _ sb Hsb)) as Hwords.
  destruct (truncate_utf8_loop_spec M B (len suf) _ Hwords loop_start [] eq_refl)
    as (e & He & _).
  { intros H1. unfold len. simpl. lia. }
  unfold truncate_utf8. rewrite Hsb. unfold rbind at 1.
  destruct (Z.leb_spec (len sb) B) as [|_]; [lia|].
  rewrite Hsuf. unfold rbind at 1. rewrite He. unfold rbind.
  rewrite Hstep in He.
  apply truncate_utf8_loop_extends in He as [more Hmore]. simpl in Hmore.
  unfold finalize. rewrite Hmore.
  destruct (current_words (exit_state e)) as [|w' cw].
  - exists (imap (fun i c => strip c ++ positional_suffix (Z.of_nat (S i) + 1)
                               (len ([] :: more))) more).
    unfold number_chunks. simpl. unfold len. simpl. rewrite length_imap.
    do 3 f_equal. lia.
  - exists (imap (fun i c => strip c ++ positional_suffix (Z.of_nat (S i) + 1)
                               (len (([] :: more) ++ [str_join (w' :: cw)])))
              (more ++ [str_join (w' :: cw)])).
    unfold number_chunks. simpl app. simpl imap. unfold len. simpl length.
    rewrite length_imap. do 3 f_equal. simpl. lia.
Qed.

Lemma empty_chunk_possible_witness :
  (exists others,
     truncate_utf8 2 (replicate 201 120 ++ lit " " ++ replicate 199 97 ++ lit " x") 200
     = Ok ((strip (str_join []) ++ positional_suffix 1 (1 + len others)) :: others)) /\
  truncate_utf8 2 (replicate 201 120 ++ lit " " ++ replicate 199 97 ++ lit " x") 200
  = Ok [lit " 1/2"; replicate 199 97 ++ lit " [...] 2/2"].
Proof.
  split; [|vm_compute; reflexivity].
  apply (empty_chunk_possible 2
           (replicate 201 120 ++ lit " " ++ replicate 199 97 ++ lit " x") 200
           [replicate 201 120] (replicate 199 97) [lit "x"]
           (replicate 201 120 ++ lit " " ++ replicate 199 97 ++ lit " x")
           (replicate 199 97) (lit " 2/2")).
  - discriminate.
  - vm_compute. reflexivity.
  - vm_compute. reflexivity.
  - vm_compute. reflexivity.
  - constructor; [vm_compute; reflexivity|constructor].
  - vm_compute. reflexivity.
  - vm_compute. discriminate.
  - vm_compute. reflexivity.
  - vm_compute. reflexivity.
Defined.

(** * Runs that complete *)

Lemma ring_extend_length (j : Z) (msgs : list str) (q q' : ring) :
  ring_extend j msgs q = Ok q' -> length q' = length q.
Proof.
  unfold ring_extend. destruct (py_index (length q) j) as [i|]; simpl; [|discriminate].
  intros [= <-]. apply length_alter.
Qed.

Lemma ring_schedule_from_length (C : Z) (msgs : list str) (indices : list Z) :
  forall q q', ring_schedule_from C msgs indices q = Ok q' -> length q' = length q.
Proof.
  induction indices as [|i indices IH]; intros q q'; simpl.
  - now intros [= <-].
  - destruct (ring_extend ((i + 1) * C - 1) msgs q) as [q1|] eqn:Hq1; simpl;
      [|discriminate].
    intros H. rewrite (IH q1 q' H). exact (ring_extend_length _ msgs q q1 Hq1).
Qed.

Lemma send_queued_completed (cfg : config) (s s' : state) :
  send_queued cfg s = (Ok tt, s') ->
  length (message_queue s') = length (message_queue s).
Proof.
  unfold send_queued. destruct (repeats cfg); [|now intros [= <-]].
  unfold bind, get, lift. destruct s as [f q kn d]. simpl.
  destruct q as [|h t]; simpl; [discriminate|].
  unfold set_message_queue at 1. rewrite for_each_call_meshtastic. simpl.
  intros [= <-]. simpl. unfold ring_append. rewrite length_app. simpl. lia.
Qed.

Section CompletedFacts.

Variable format_time : str -> result str.

Lemma announce_completed (cfg : config) (data : list warning_area) (id : str)
    (s s' : state) :
  announce format_time cfg data id s = (Ok tt, s') ->
  length (message_queue s') = length (message_queue s).
Proof.
  unfold announce, bind, lift.
  destruct (find_alert data id) as [a|]; [|discriminate].
  destruct (format_message format_time a) as [message|]; [|discriminate].
  destruct (truncate_utf8 (MAX_MESSAGES cfg) message 200) as [cs|]; [|discriminate].
  rewrite for_each_call_meshtastic.
  destruct (repeats cfg); [|now intros [= <-]].
  unfold get, set_message_queue. simpl.
  destruct (ring_schedule _ _ cs (message_queue s)) as [q'|] eqn:Hq'; [|discriminate].
  intros [= <-]. simpl. exact (ring_schedule_from_length _ cs _ _ _ Hq').
Qed.

Lemma for_each_announce_completed (cfg : config) (data : list warning_area)
    (ids : list str) :
  forall s s', for_each ids (announce format_time cfg data) s = (Ok tt, s') ->
    length (message_queue s') = length (message_queue s).
Proof.
  induction ids as [|id ids IH]; intros s s'; simpl.
  - now intros [= <-].
  - unfold bind at 1.
    destruct (announce format_time cfg data id s) as [[[]|e] s1] eqn:Hs1;
      [|discriminate].
    intros H. rewrite (IH s1 s' H). exact (announce_completed cfg data id s s1 Hs1).
Qed.

Lemma cycle_completed (cfg : config) (r : reply) (s s' : state) :
  cycle format_time cfg r s = (Ok tt, s') ->
  length (message_queue s') = length (message_queue s) /\
  first s' = false /\
  exists data, r = Body data /\
    known_alerts s' = fst (filter_alerts (GEOCODE cfg) data (∅, [])).
Proof.
  intros Hcycle. unfold cycle in Hcycle. unfold bind at 1 in Hcycle.
  destruct (send_queued cfg s) as [[[]|e] s1] eqn:Hs1; [|discriminate].
  apply send_queued_completed in Hs1.
  unfold bind at 1 in Hcycle. unfold lift at 1 in Hcycle.
  destruct r as [| |data]; simpl fetch_alerts in Hcycle; try discriminate.
  rewrite (surjective_pairing (filter_alerts (GEOCODE cfg) data (∅, []))) in Hcycle.
  unfold bind at 1 in Hcycle. unfold lift at 1, unpack2 in Hcycle.
  unfold bind at 1 in Hcycle. unfold get at 1 in Hcycle.
  cbv beta iota zeta in Hcycle. unfold fst at 1 2, snd at 1 in Hcycle.
  unfold bind at 1 in Hcycle.
  destruct ((if negb (first s1) then _ else ret tt) s1) as [[[]|e] s2] eqn:Hs2;
    [|discriminate].
  assert (Hl2 : length (message_queue s2) = length (message_queue s1)).
  { destruct (negb (first s1)).
    - now apply for_each_announce_completed in Hs2.
    - unfold ret in Hs2. now injection Hs2 as <-. }
  unfold bind, set_known_alerts, get, set_first, ret in Hcycle. simpl in Hcycle.
  destruct (first s2) eqn:Hf2; injection Hcycle as <-; simpl;
    (split; [congruence|]); (split; [try reflexivity; exact Hf2|]);
    exists data; split; reflexivity.
Qed.

Lemma run_completed (cfg : config) (replies : list reply) :
  forall s s', for_each replies (cycle format_time cfg) s = (Ok tt, s') ->
    length (message_queue s') = length (message_queue s) /\
    (replies <> [] ->
     first s' = false /\
     exists data, List.last replies RequestFailed = Body data /\
       known_alerts s' = fst (filter_alerts (GEOCODE cfg) data (∅, []))).
Proof.
  induction replies as [|r replies IH]; intros s s'; simpl for_each.
  - intros [= <-]. split; [reflexivity|contradiction].
  - unfold bind at 1.
    destruct (cycle format_time cfg r s) as [[[]|e] s1] eqn:Hs1; [|discriminate].
    intros Hrest. apply cycle_completed in Hs1 as (Hl1 & Hf1 & data & -> & Hk1).
    destruct (IH s1 s' Hrest) as [Hl Hlast]. split; [congruence|]. intros _.
    destruct replies as [|r' replies].
    + simpl in Hrest. unfold ret in Hrest. injection Hrest as <-.
      split; [exact Hf1|]. exists data. now split.
    + apply Hlast. discriminate.
Qed.

End CompletedFacts.

(** X8.  Whenever a run of [main] completes all its cycles, the queue has
    the number of slots it was created with; and if at least one cycle
    ran, [first] is false, the last reply was a parsed feed, and the known
    set is the key set of that feed. *)
Theorem completed_run_invariants (format_time : str -> result str) (cfg : config)
    (replies : list reply) (s' : state) :
  main format_time cfg replies = (Ok tt, s') ->
  length (message_queue s')
  = length (new_ring (REPEAT_NUM_MSG cfg) (REPEAT_NUM_CYCL cfg)) /\
  (replies <> [] ->
   first s' = false /\
   exists data, List.last replies RequestFailed = Body data /\
     known_alerts s' = fst (filter_alerts (GEOCODE cfg) data (∅, []))).
Proof.
  intros Hmain. exact (run_completed format_time cfg replies (initial cfg) s' Hmain).
Qed.

Lemma completed_run_invariants_witness :
  length (message_queue
            (snd (main sample_format_time (sample_config false)
                    [Body [wind_warning]; Body []; Body [wind_warning]; Body []])))
  = 6%nat /\
  known_alerts
    (snd (main sample_format_time (sample_config false)
            [Body [wind_warning]; Body []; Body [wind_warning]; Body []])) = ∅.
Proof.
  destruct (completed_run_invariants sample_format_time (sample_config false)
              [Body [wind_warning]; Body []; Body [wind_warning]; Body []]
              (snd (main sample_format_time (sample_config false)
                      [Body [wind_warning]; Body []; Body [wind_warning]; Body []])))
    as (Hl & Hlast).
  - vm_compute. reflexivity.
  - split; [exact Hl|].
    destruct (Hlast ltac:(discriminate)) as (_ & data & Hdata & Hk).
    injection Hdata as <-. exact Hk.
Defined.
